(** * fanotify-cmdline: a shallow embedding of [fanotify-cmdline.c]

    The program watches directories through the Linux fanotify interface and
    prints, for every event, the path of the file and the command line of the
    process that touched it.  This development models the C source function
    by function:

    - bytes are [Byte.byte], multi-byte fields are little-endian
      ([le_combine] / [le_split] of coqutil), C integers are [Z];
    - every system or library call is a node of a small interaction monad
      [M]; the answers of the kernel come from an environment [env] that sees
      the calls made so far;
    - [exit()] is a leaf of [M] that discards the continuation;
    - the globals [event_mask], [monitors] and [n_monitors] are the record
      [globals], passed explicitly. *)

From Stdlib Require Import ZArith List String Ascii Bool Lia.
From Stdlib Require Import Init.Byte DecimalString.
From coqutil Require Import Byte Word.LittleEndianList.
Import ListNotations.

Local Open Scope string_scope.
Local Open Scope list_scope.
Local Open Scope Z_scope.

(** ** Constants of the system headers *)

Module Sys.

(** Modelled from the spec: [<sys/fanotify.h>] is a system header and not
    part of the repository.  The spec (section 3) describes the seven event
    categories as independent, OR-composable bit flags; the values are the
    ones of the Linux interface. *)
Definition FAN_ACCESS         : Z := 0x00000001.
Definition FAN_MODIFY         : Z := 0x00000002.
Definition FAN_CLOSE_WRITE    : Z := 0x00000008.
Definition FAN_CLOSE_NOWRITE  : Z := 0x00000010.
Definition FAN_OPEN           : Z := 0x00000020.
Definition FAN_EVENT_ON_CHILD : Z := 0x08000000.
Definition FAN_ONDIR          : Z := 0x40000000.

Definition FAN_MARK_ADD    : Z := 0x00000001.
Definition FAN_MARK_REMOVE : Z := 0x00000002.

(** [sizeof (struct fanotify_event_metadata)]: the fixed header of a
    record. *)
Definition FAN_EVENT_METADATA_LEN : Z := 24.

(** [sizeof (struct signalfd_siginfo)]. *)
Definition SIGNALFD_SIGINFO_LEN : Z := 128.

Definition SIGINT  : Z := 2.
Definition SIGTERM : Z := 15.
Definition POLLIN  : Z := 1.
Definition PATH_MAX : Z := 4096.
Definition EXIT_SUCCESS : Z := 0.
Definition EXIT_FAILURE : Z := 1.

End Sys.
Import Sys.

(** [#define FANOTIFY_BUFFER_SIZE 8192] *)
Definition FANOTIFY_BUFFER_SIZE : Z := 8192.

(** ** Machine integers and C strings *)

Definition uint64_max : Z := 2 ^ 64 - 1.

(** [~x] on a [uint64_t]. *)
Definition not64 (x : Z) : Z := Z.lxor x uint64_max.

(** Reading of a two's-complement [int] out of its 32-bit pattern. *)
Definition signed32 (u : Z) : Z := if u <? 2 ^ 31 then u else u - 2 ^ 32.

(** [printf ("%d", z)]. *)
Definition string_of_Z (z : Z) : string := NilZero.string_of_int (Z.to_int z).

(** The C string held in a [char] buffer: the bytes before the first NUL. *)
Fixpoint c_str (buffer : list byte) : list byte :=
  match buffer with
  | [] => []
  | b :: rest => if Byte.eqb b x00 then [] else b :: c_str rest
  end.

(** [printf ("%s", p)]: [NULL] is shown as [(null)] (glibc). *)
Definition show_str (p : option string) : string :=
  match p with
  | Some s => s
  | None => "(null)"
  end.

(** ** System calls, environments and the interaction monad *)

(** A call, indexed by the type of what it hands back to the program.
    [None] stands for the error return [-1] of [read], [readlink] and
    [poll]. *)
Inductive sys : Type -> Type :=
| sys_open (path : string) : sys Z
| sys_read (fd count : Z) : sys (option (list byte))
| sys_readlink (path : string) (bufsiz : Z) : sys (option (list byte))
| sys_close (fd : Z) : sys Z
| sys_time : sys Z
| lib_ctime (t : Z) : sys string
| lib_strerror : sys string
| sys_stdout (s : string) : sys unit
| sys_stderr (s : string) : sys unit
| lib_fflush : sys unit
| sys_sigprocmask (signals : list Z) : sys Z
| sys_signalfd (signals : list Z) : sys Z
| sys_fanotify_init : sys Z
| sys_fanotify_mark (fanotify_fd flags mask : Z) (path : string) : sys Z
| sys_poll (fd0 fd1 : Z) : sys (option (Z * Z))
| lib_malloc (n : Z) : sys unit
| lib_strdup (s : string) : sys unit
| lib_free_path (s : string) : sys unit
| lib_free_monitors : sys unit.

(** A logged call. *)
Definition call : Type := { R : Type & sys R }.

Definition log {R} (c : sys R) : call := existT sys R c.

Definition trace : Type := list call.

(** The environment answers a call knowing the calls made before it. *)
Definition env : Type := forall R, trace -> sys R -> R.

(** Why a run stopped before its continuation: [exit (status)]; an access
    outside the bytes of a buffer; or the fuel of a loop ran out, that is, the
    program would still be running. *)
Inductive halt : Type :=
| Exited (status : Z)
| Faulted
| Unfinished.

Inductive M (A : Type) : Type :=
| Ret (a : A)
| Halt (h : halt)
| Vis {R : Type} (c : sys R) (k : R -> M A).

Arguments Ret {A} a.
Arguments Halt {A} h.
Arguments Vis {A R} c k.

Fixpoint bind {A B} (p : M A) (f : A -> M B) : M B :=
  match p with
  | Ret a => f a
  | Halt h => Halt h
  | Vis c k => Vis c (fun r => bind (k r) f)
  end.

Declare Scope m_scope.
Delimit Scope m_scope with M.
Notation "x <- p ;; q" := (bind p (fun x => q))
  (at level 61, p at next level, right associativity) : m_scope.
Notation "' pat <- p ;; q" := (bind p (fun x => match x with pat => q end))
  (at level 61, pat pattern, p at next level, right associativity) : m_scope.
Notation "p ;; q" := (bind p (fun _ => q))
  (at level 61, right associativity) : m_scope.
Local Open Scope m_scope.

Definition perform {R} (c : sys R) : M R := Vis c Ret.

Definition exit {A} (status : Z) : M A := Halt (Exited status).

(** How a run ended. *)
Inductive result (A : Type) : Type :=
| Done (a : A)
| Stopped (h : halt).

Arguments Done {A} a.
Arguments Stopped {A} h.

(** [exec e p h]: run [p] after the calls [h]; the calls of [p] are appended
    in the order they are made. *)
Fixpoint exec {A} (e : env) (p : M A) (h : trace) : trace * result A :=
  match p with
  | Ret a => (h, Done a)
  | Halt s => (h, Stopped s)
  | Vis c k => exec e (k (e _ h c)) (h ++ [log c])
  end.

(** ** Wrappers of the calls the program makes *)

Definition printf (s : string) : M unit := perform (sys_stdout s).

Definition eprintf (s : string) : M unit := perform (sys_stderr s).

Definition open (path : string) : M Z := perform (sys_open path).

Definition close (fd : Z) : M Z := perform (sys_close fd).

(** [len = read (fd, buffer, count)]: the return value and the bytes now in
    [buffer[0 .. len)].  [read(2)] hands back at most [count] bytes. *)
Definition read (fd count : Z) : M (Z * list byte) :=
  a <- perform (sys_read fd count) ;;
  match a with
  | None => Ret (-1, [])
  | Some data =>
      let buffer := firstn (Z.to_nat count) data in
      Ret (Z.of_nat (List.length buffer), buffer)
  end.

(** [len = readlink (path, buffer, bufsiz)], same conventions. *)
Definition readlink (path : string) (bufsiz : Z) : M (Z * list byte) :=
  a <- perform (sys_readlink path bufsiz) ;;
  match a with
  | None => Ret (-1, [])
  | Some data =>
      let buffer := firstn (Z.to_nat bufsiz) data in
      Ret (Z.of_nat (List.length buffer), buffer)
  end.

(** ** Event records in the read buffer *)

(** [struct fanotify_event_metadata], as laid out by the kernel:
    [event_len] (u32, offset 0), [vers] (u8, 4), [reserved] (u8, 5),
    [metadata_len] (u16, 6), [mask] (u64, 8), [fd] (s32, 16),
    [pid] (s32, 20). *)
Record fanotify_event_metadata : Type := {
  event_len : Z;
  vers : Z;
  reserved : Z;
  metadata_len : Z;
  mask : Z;
  fd : Z;
  pid : Z
}.

(** [n] bytes of [buffer] at offset [off]; [None] when some of them lie
    outside the bytes the read returned. *)
Definition load (buffer : list byte) (off : Z) (n : nat) : option (list byte) :=
  if (0 <=? off) && (off + Z.of_nat n <=? Z.of_nat (List.length buffer))
  then Some (firstn n (skipn (Z.to_nat off) buffer))
  else None.

Definition load_uint (buffer : list byte) (off : Z) (n : nat) : option Z :=
  option_map le_combine (load buffer off n).

(** The fields of the record that starts at offset [meta]. *)
Definition load_metadata (buffer : list byte) (meta : Z)
  : option fanotify_event_metadata :=
  match load_uint buffer meta 4, load_uint buffer (meta + 4) 1,
        load_uint buffer (meta + 5) 1, load_uint buffer (meta + 6) 2,
        load_uint buffer (meta + 8) 8, load_uint buffer (meta + 16) 4,
        load_uint buffer (meta + 20) 4 with
  | Some l, Some v, Some r, Some ml, Some m, Some f, Some p =>
      Some {| event_len := l; vers := v; reserved := r; metadata_len := ml;
              mask := m; fd := signed32 f; pid := signed32 p |}
  | _, _, _, _, _, _, _ => None
  end.

(** Modelled from the spec: the macro [FAN_EVENT_OK (meta, len)] of
    [<sys/fanotify.h>], absent from the repository.  Spec, section 4.4: "at
    each step validates that a full header fits within [offset, bytes_read)
    and that the record's declared length is >= header size and does not
    exceed the remaining buffer".  The conjunction is evaluated left to
    right, so [event_len] is read only when the header fits in [len]. *)
Definition FAN_EVENT_OK (buffer : list byte) (meta len : Z) : option bool :=
  if len >=? FAN_EVENT_METADATA_LEN then
    match load_uint buffer meta 4 with
    | Some l => Some ((l >=? FAN_EVENT_METADATA_LEN) && (l <=? len))
    | None => None
    end
  else Some false.

(** Modelled from the spec: the macro [FAN_EVENT_NEXT (meta, len)] of
    [<sys/fanotify.h>], absent from the repository.  Spec, section 4.4:
    "Advances offset by the record's declared length after each yield".  The
    macro also takes the declared length off [len]. *)
Definition FAN_EVENT_NEXT (buffer : list byte) (meta len : Z) : option (Z * Z) :=
  match load_uint buffer meta 4 with
  | Some l => Some (meta + l, len - l)
  | None => None
  end.

(** The records the [while] loop of [main] (lines 376-381) hands to its body,
    each with the offset it starts at: the decoder on its own, without the
    processing of the records. *)
Fixpoint fan_events (fuel : nat) (buffer : list byte) (meta len : Z)
  : result (list (Z * fanotify_event_metadata)) :=
  match fuel with
  | O => Stopped Unfinished
  | S fuel' =>
      match FAN_EVENT_OK buffer meta len with
      | None => Stopped Faulted
      | Some false => Done []
      | Some true =>
          match load_metadata buffer meta, FAN_EVENT_NEXT buffer meta len with
          | Some metadata, Some (meta', len') =>
              match fan_events fuel' buffer meta' len' with
              | Done rest => Done ((meta, metadata) :: rest)
              | Stopped h => Stopped h
              end
          | _, _ => Stopped Faulted
          end
      end
  end.

(** A buffer of [n] bytes holds fewer than [n + 1] records. *)
Definition decode_fuel (buffer : list byte) : nat := S (List.length buffer).

(** Decoding of what one [read] returned. *)
Definition decode (buffer : list byte)
  : result (list (Z * fanotify_event_metadata)) :=
  fan_events (decode_fuel buffer) buffer 0 (Z.of_nat (List.length buffer)).

(** ** Category names: [getmask] *)

(** [tolower] in the C locale (the program never calls [setlocale]). *)
Definition tolower (c : ascii) : ascii :=
  let n := N_of_ascii c in
  if ((65 <=? n) && (n <=? 90))%N then ascii_of_N (n + 32) else c.

Definition code (c : ascii) : Z := Z.of_N (N_of_ascii c).

(** [strcasecmp (s1, s2)]: the difference of the first two characters that
    differ once lowered, [0] when there is none. *)
Fixpoint strcasecmp (s1 s2 : string) : Z :=
  match s1, s2 with
  | EmptyString, EmptyString => 0
  | EmptyString, String c2 _ => - code (tolower c2)
  | String c1 _, EmptyString => code (tolower c1)
  | String c1 r1, String c2 r2 =>
      let d := code (tolower c1) - code (tolower c2) in
      if d =? 0 then strcasecmp r1 r2 else d
  end.

(** Does [haystack] begin with [needle], case ignored? *)
Fixpoint starts_with_ci (needle haystack : string) : bool :=
  match needle, haystack with
  | EmptyString, _ => true
  | String _ _, EmptyString => false
  | String c1 r1, String c2 r2 =>
      Ascii.eqb (tolower c1) (tolower c2) && starts_with_ci r1 r2
  end.

(** [strcasestr (haystack, needle)]: the tail of [haystack] that starts at
    the first occurrence of [needle], case ignored; [None] is [NULL]. *)
Fixpoint strcasestr (haystack needle : string) : option string :=
  if starts_with_ci needle haystack then Some haystack
  else
    match haystack with
    | EmptyString => None
    | String _ rest => strcasestr rest needle
    end.

(** [p + n] on a [char *] that has at least [n] characters. *)
Fixpoint advance (n : nat) (p : string) : string :=
  match n, p with
  | S n', String _ rest => advance n' rest
  | _, _ => p
  end.

(** The table [fanmask] of [getmask], without its [NULL] sentinel. *)
Definition fanmask : list (string * Z) :=
  [ ("ACCESS", FAN_ACCESS);
    ("MODIFY", FAN_MODIFY);
    ("CLOSE_WRITE", FAN_CLOSE_WRITE);
    ("CLOSE_NOWRITE", FAN_CLOSE_NOWRITE);
    ("OPEN", FAN_OPEN);
    ("ONDIR", FAN_ONDIR);
    ("EVENT_ON_CHILD", FAN_EVENT_ON_CHILD) ].

(** The [do ... while] of [getmask]: the first entry whose name compares
    equal to [body]; [0] when the sentinel is reached. *)
Fixpoint fanmask_scan (body : string) (table : list (string * Z)) : Z :=
  match table with
  | [] => 0
  | (name, value) :: rest =>
      if strcasecmp body name =? 0 then value else fanmask_scan body rest
  end.

Definition getmask (name : string) : Z :=
  let prefix := "FAN_" in
  let len := String.length prefix in
  let body :=
    match strcasestr name prefix with
    | None => name
    | Some p => advance len p
    end in
  fanmask_scan body fanmask.

(** ** Globals *)

(** The initial value of the global [event_mask] (lines 46-53). *)
Definition event_mask_default : Z :=
  Z.lor FAN_ACCESS
    (Z.lor FAN_MODIFY
       (Z.lor FAN_CLOSE_WRITE
          (Z.lor FAN_CLOSE_NOWRITE
             (Z.lor FAN_OPEN (Z.lor FAN_ONDIR FAN_EVENT_ON_CHILD))))).

(** [event_mask], and the array [monitors] with its length [n_monitors]: the
    list holds the paths duplicated so far, in the order of the array. *)
Record globals : Type := {
  event_mask : Z;
  monitors : list string
}.

(** ** Option parsing in [main] (lines 272-302) *)

(** The [for] loop over [argv[i]], [args] being [argv[i .. argc)].  It ends
    with the value of [i] after the loop and the new [event_mask]. *)
Fixpoint parse_loop (args : list string) (i : Z) (event_mask : Z) : Z * Z :=
  match args with
  | [] => (event_mask, i)
  | a :: rest =>
      if String.eqb a "+e" then
        match rest with
        | [] => (event_mask, i + 1)
        | name :: rest' =>
            let mask := getmask name in
            parse_loop rest' (i + 1 + 1)
              (if mask =? 0 then event_mask else Z.lor event_mask mask)
        end
      else if String.eqb a "-e" then
        match rest with
        | [] => (event_mask, i + 1)
        | name :: rest' =>
            let mask := getmask name in
            parse_loop rest' (i + 1 + 1)
              (if mask =? 0 then event_mask
               else Z.land event_mask (not64 mask))
        end
      else (event_mask, i)
  end.

(** Lines 272-302 for [argc >= 2]: the reset by a leading [+e], then the
    loop from [i = 1]. *)
Definition parse_options (argv : list string) : Z * Z :=
  let event_mask :=
    match nth_error argv 1 with
    | Some a => if String.eqb a "+e" then 0 else event_mask_default
    | None => event_mask_default
    end in
  parse_loop (skipn 1 argv) 1 event_mask.

(** ** Metadata resolution *)

Definition text (buffer : list byte) : string :=
  string_of_list_byte (c_str buffer).

(** The loop of lines 76-80 on [buffer[0 .. len)]. *)
Definition nul_to_space (b : byte) : byte :=
  if Byte.eqb b x00 then x20 else b.

(** Lines 59-85.  [None] is the [NULL] return; otherwise the content of
    [buffer] up to and including the terminator written at [buffer[len]]. *)
Definition get_program_cmdline_from_pid (pid : Z) (buffer_size : Z)
  : M (option (list byte)) :=
  fd <- open ("/proc/" ++ string_of_Z pid ++ "/cmdline")%string ;;
  if fd <? 0 then Ret None
  else
    ' (len, buffer) <- read fd (buffer_size - 1) ;;
    if len <=? 0 then close fd ;; Ret None
    else
      close fd ;;
      let buffer := map nul_to_space buffer in
      Ret (Some (buffer ++ [x00])).

(** Lines 87-100. *)
Definition get_file_path_from_fd (fd : Z) (buffer_size : Z)
  : M (option (list byte)) :=
  if fd <=? 0 then Ret None
  else
    ' (len, buffer) <-
        readlink ("/proc/self/fd/" ++ string_of_Z fd)%string (buffer_size - 1) ;;
    if len <? 0 then Ret None
    else Ret (Some (buffer ++ [x00])).

(** ** Reporting one event *)

Definition newline : ascii := "010"%char.

Fixpoint skip_newlines (s : string) : string :=
  match s with
  | EmptyString => EmptyString
  | String c rest => if Ascii.eqb c newline then skip_newlines rest else s
  end.

Fixpoint until_newline (s : string) : string :=
  match s with
  | EmptyString => EmptyString
  | String c rest =>
      if Ascii.eqb c newline then EmptyString else String c (until_newline rest)
  end.

(** [strtok (s, "\n")] called on the start of [s]: the first run of
    characters other than a newline, [None] when there is none.  Calling it
    again on the same pointer gives the same token. *)
Definition strtok_newline (s : string) : option string :=
  match skip_newlines s with
  | EmptyString => None
  | t => Some (until_newline t)
  end.

Definition or_unknown (p : option (list byte)) : string :=
  match p with
  | Some path => text path
  | None => "unknown"
  end.

Definition when (b : bool) (p : M unit) : M unit :=
  if b then p else Ret tt.

Definition has_flag (m flag : Z) : bool := negb (Z.land m flag =? 0).

(** Lines 102-136. *)
Definition event_process (event : fanotify_event_metadata) : M unit :=
  current_time <- perform sys_time ;;
  c_time_string <- perform (lib_ctime current_time) ;;
  let stamp := show_str (strtok_newline c_time_string) in
  let who := (stamp ++ " [" ++ string_of_Z (pid event) ++ "] ")%string in
  path <- get_file_path_from_fd (fd event) PATH_MAX ;;
  printf (who ++ "Event on '" ++ or_unknown path ++ "':" ++ String newline "")%string ;;
  printf (who ++ "Event: ")%string ;;
  when (has_flag (mask event) FAN_OPEN) (printf "FAN_OPEN ") ;;
  when (has_flag (mask event) FAN_ACCESS) (printf "FAN_ACCESS ") ;;
  when (has_flag (mask event) FAN_MODIFY) (printf "FAN_MODIFY ") ;;
  when (has_flag (mask event) FAN_CLOSE_WRITE) (printf "FAN_CLOSE_WRITE ") ;;
  when (has_flag (mask event) FAN_CLOSE_NOWRITE) (printf "FAN_CLOSE_NOWRITE ") ;;
  printf (String newline "") ;;
  cmdline <- get_program_cmdline_from_pid (pid event) PATH_MAX ;;
  printf (who ++ "Cmdline: " ++ or_unknown cmdline
            ++ String newline (String newline ""))%string ;;
  perform lib_fflush ;;
  close (fd event) ;;
  Ret tt.

(** ** Set-up and tear-down *)

(** The loop of lines 141-149. *)
Fixpoint remove_marks (fanotify_fd event_mask : Z) (paths : list string)
  : M unit :=
  match paths with
  | [] => Ret tt
  | path :: rest =>
      perform (sys_fanotify_mark fanotify_fd FAN_MARK_REMOVE event_mask path) ;;
      perform (lib_free_path path) ;;
      remove_marks fanotify_fd event_mask rest
  end.

(** Lines 138-152. *)
Definition shutdown_fanotify (g : globals) (fanotify_fd : Z) : M unit :=
  remove_marks fanotify_fd (event_mask g) (monitors g) ;;
  perform lib_free_monitors ;;
  close fanotify_fd ;;
  Ret tt.

(** The loop of lines 172-189 over [argv[1 .. argc)]; [done] holds the paths
    already stored in [monitors].  The boolean tells whether every mark was
    added. *)
Fixpoint add_marks (fanotify_fd event_mask : Z) (paths done : list string)
  : M (bool * list string) :=
  match paths with
  | [] => Ret (true, done)
  | path :: rest =>
      perform (lib_strdup path) ;;
      let done := done ++ [path] in
      r <- perform (sys_fanotify_mark fanotify_fd FAN_MARK_ADD event_mask path) ;;
      if r <? 0 then
        err <- perform lib_strerror ;;
        eprintf ("Couldn't add monitor in directory '" ++ path ++ "': '"
                   ++ err ++ "'" ++ String newline "")%string ;;
        Ret (false, done)
      else
        printf ("Started monitoring '" ++ path ++ "'..."
                  ++ String newline "")%string ;;
        add_marks fanotify_fd event_mask rest done
  end.

(** Lines 154-192, called with [argv] pointing one before the first
    directory. *)
Definition initialize_fanotify (g : globals) (argv : list string)
  : M (Z * globals) :=
  fanotify_fd <- perform sys_fanotify_init ;;
  if fanotify_fd <? 0 then
    err <- perform lib_strerror ;;
    eprintf ("Couldn't setup new fanotify-cmdline device: " ++ err
               ++ String newline "")%string ;;
    Ret (-1, g)
  else
    let n_monitors := Z.of_nat (List.length argv) - 1 in
    perform (lib_malloc (n_monitors * 8)) ;;
    ' (ok, paths) <- add_marks fanotify_fd (event_mask g) (skipn 1 argv) [] ;;
    let g := {| event_mask := event_mask g; monitors := paths |} in
    if ok then Ret (fanotify_fd, g) else Ret (-1, g).

(** Lines 194-196. *)
Definition shutdown_signals (signal_fd : Z) : M unit :=
  close signal_fd ;; Ret tt.

(** Lines 198-223. *)
Definition initialize_signals : M Z :=
  r <- perform (sys_sigprocmask [SIGINT; SIGTERM]) ;;
  if r <? 0 then
    err <- perform lib_strerror ;;
    eprintf ("Couldn't block signals: '" ++ err ++ "'"
               ++ String newline "")%string ;;
    Ret (-1)
  else
    signal_fd <- perform (sys_signalfd [SIGINT; SIGTERM]) ;;
    if signal_fd <? 0 then
      err <- perform lib_strerror ;;
      eprintf ("Couldn't setup signal FD: '" ++ err ++ "'"
                 ++ String newline "")%string ;;
      Ret (-1)
    else Ret signal_fd.

(** ** The event loop *)

(** What [main] does with one record (lines 377-379): the report, then a
    [close] of its own when the descriptor is positive. *)
Definition handle_record (metadata : fanotify_event_metadata) : M unit :=
  event_process metadata ;;
  if fd metadata >? 0 then close (fd metadata) ;; Ret tt else Ret tt.

(** The [while] loop of lines 376-381. *)
Fixpoint event_loop (fuel : nat) (buffer : list byte) (meta len : Z) : M unit :=
  match fuel with
  | O => Halt Unfinished
  | S fuel' =>
      match FAN_EVENT_OK buffer meta len with
      | None => Halt Faulted
      | Some false => Ret tt
      | Some true =>
          match load_metadata buffer meta, FAN_EVENT_NEXT buffer meta len with
          | Some metadata, Some (meta', len') =>
              handle_record metadata ;;
              event_loop fuel' buffer meta' len'
          | _, _ => Halt Faulted
          end
      end
  end.

Inductive loop_ctl : Type :=
| Continue
| Break.

Definition usage (argv : list string) : M unit :=
  eprintf ("Usage: " ++ show_str (nth_error argv 0)
             ++ " [-e mask | +e mask]... directory1 [directory2 ...]"
             ++ String newline "")%string ;;
  eprintf ("mask: ACCESS, MODIFY, CLOSE_WRITE, CLOSE_NOWRITE, OPEN, ONDIR, EVENT_ON_CHILD"
             ++ String newline "")%string.

(** Lines 342-361: the signal half of one turn of the loop. *)
Definition signal_ready (signal_fd : Z) : M loop_ctl :=
  ' (n, fdsi) <- read signal_fd SIGNALFD_SIGINFO_LEN ;;
  if negb (n =? SIGNALFD_SIGINFO_LEN) then
    eprintf ("Couldn't read signal, wrong size read" ++ String newline "")%string ;;
    exit EXIT_FAILURE
  else
    let ssi_signo := le_combine (firstn 4 fdsi) in
    if (ssi_signo =? SIGINT) || (ssi_signo =? SIGTERM) then Ret Break
    else
      eprintf ("Received unexpected signal" ++ String newline "")%string ;;
      Ret Continue.

(** Lines 364-383: the fanotify half. *)
Definition fanotify_ready (fanotify_fd : Z) : M unit :=
  ' (length, buffer) <- read fanotify_fd FANOTIFY_BUFFER_SIZE ;;
  if length >? 0 then event_loop (decode_fuel buffer) buffer 0 length
  else Ret tt.

(** One turn of [for (;;)] (lines 332-384). *)
Definition loop_body (signal_fd fanotify_fd : Z) : M loop_ctl :=
  r <- perform (sys_poll signal_fd fanotify_fd) ;;
  match r with
  | None =>
      err <- perform lib_strerror ;;
      eprintf ("Couldn't poll(): '" ++ err ++ "'" ++ String newline "")%string ;;
      exit EXIT_FAILURE
  | Some (revents_signal, revents_fanotify) =>
      c <- (if has_flag revents_signal POLLIN then signal_ready signal_fd
            else Ret Continue) ;;
      match c with
      | Break => Ret Break
      | Continue =>
          when (has_flag revents_fanotify POLLIN) (fanotify_ready fanotify_fd) ;;
          Ret Continue
      end
  end.

(** [for (;;)], at most [fuel] turns. *)
Fixpoint main_loop (fuel : nat) (signal_fd fanotify_fd : Z) : M unit :=
  match fuel with
  | O => Halt Unfinished
  | S fuel' =>
      c <- loop_body signal_fd fanotify_fd ;;
      match c with
      | Break => Ret tt
      | Continue => main_loop fuel' signal_fd fanotify_fd
      end
  end.

(** Lines 386-392. *)
Definition clean_exit (g : globals) (signal_fd fanotify_fd : Z) : M Z :=
  shutdown_fanotify g fanotify_fd ;;
  shutdown_signals signal_fd ;;
  printf ("Exiting fanotify-cmdline example..." ++ String newline "")%string ;;
  Ret EXIT_SUCCESS.

(** Lines 312-323: both channels are opened and the marks added; the result
    is the state the loop runs in. *)
Definition startup (g : globals) (i : Z) (argv : list string)
  : M (Z * Z * globals) :=
  signal_fd <- initialize_signals ;;
  if signal_fd <? 0 then
    eprintf ("Couldn't initialize signals" ++ String newline "")%string ;;
    exit EXIT_FAILURE
  else
    let i := i - 1 in
    ' (fanotify_fd, g) <- initialize_fanotify g (skipn (Z.to_nat i) argv) ;;
    if fanotify_fd <? 0 then
      eprintf ("Couldn't initialize fanotify-cmdline" ++ String newline "")%string ;;
      exit EXIT_FAILURE
    else Ret (signal_fd, fanotify_fd, g).

(** Lines 332-392: the loop, then the clean exit. *)
Definition running (fuel : nat) (g : globals) (signal_fd fanotify_fd : Z) : M Z :=
  main_loop fuel signal_fd fanotify_fd ;;
  clean_exit g signal_fd fanotify_fd.

(** Lines 255-393; [argc] is the length of [argv]. *)
Definition main (fuel : nat) (argv : list string) : M Z :=
  let argc := Z.of_nat (List.length argv) in
  if argc <? 2 then usage argv ;; exit EXIT_FAILURE
  else
    let '(mask, i) := parse_options argv in
    let g := {| event_mask := mask; monitors := [] |} in
    if argc <=? i then usage argv ;; exit EXIT_FAILURE
    else
      ' (signal_fd, fanotify_fd, g) <- startup g i argv ;;
      running fuel g signal_fd fanotify_fd.

(** ** Reading traces *)

Definition close_of (c : call) : option Z :=
  match projT2 c with
  | sys_close fd => Some fd
  | _ => None
  end.

(** The [(mask, path)] of every [fanotify_mark] call made with [flags]. *)
Definition mark_of (flags : Z) (c : call) : option (Z * string) :=
  match projT2 c with
  | sys_fanotify_mark _ f m p => if f =? flags then Some (m, p) else None
  | _ => None
  end.

Fixpoint collect {A} (f : call -> option A) (t : trace) : list A :=
  match t with
  | [] => []
  | c :: rest =>
      match f c with
      | Some a => a :: collect f rest
      | None => collect f rest
      end
  end.

(** How many times [close (fd)] was called. *)
Definition close_count (fd : Z) (t : trace) : nat :=
  count_occ Z.eq_dec (collect close_of t) fd.

Definition marks (flags : Z) (t : trace) : list (Z * string) :=
  collect (mark_of flags) t.

Definition free_of (c : call) : option string :=
  match projT2 c with
  | lib_free_path p => Some p
  | _ => None
  end.

Definition freed_paths (t : trace) : list string := collect free_of t.


Definition readlink_of (c : call) : option string :=
  match projT2 c with
  | sys_readlink p _ => Some p
  | _ => None
  end.

(** ** Properties of programs, for all environments *)

(** [always P H p]: every call [p] can make satisfies [P], and [p] stops
    early only for a reason in [H]. *)
Fixpoint always (P : call -> Prop) (H : halt -> Prop) {A} (p : M A) : Prop :=
  match p with
  | Ret _ => True
  | Halt h => H h
  | Vis c k => P (log c) /\ forall r, always P H (k r)
  end.

(** Calls that tell the time, read a link or print. *)
Definition printing (c : call) : Prop :=
  match projT2 c with
  | sys_time | lib_ctime _ | sys_stdout _ | sys_stderr _ | lib_fflush
  | lib_strerror | sys_readlink _ _ => True
  | _ => False
  end.

(** Calls made while events are reported: printing, resolving, reading and
    closing; neither a mark nor a release of memory. *)
Definition reporting (c : call) : Prop :=
  match projT2 c with
  | sys_time | lib_ctime _ | sys_stdout _ | sys_stderr _ | lib_fflush
  | lib_strerror | sys_readlink _ _ | sys_open _ | sys_read _ _
  | sys_close _ | sys_poll _ _ => True
  | _ => False
  end.

Definition never (h : halt) : Prop := False.

Definition anyhow (h : halt) : Prop := True.

Definition fuelled (h : halt) : Prop := h <> Unfinished.

(** ** The vocabulary of the specification *)

(** The seven event categories (spec, section 3). *)
Inductive category : Type :=
| Accessed
| Modified
| ClosedAfterWrite
| ClosedWithoutWrite
| Opened
| DirectoryEvents
| EventsOnChildren.

Definition categories : list category :=
  [Accessed; Modified; ClosedAfterWrite; ClosedWithoutWrite; Opened;
   DirectoryEvents; EventsOnChildren].

Definition category_bit (c : category) : Z :=
  match c with
  | Accessed => FAN_ACCESS
  | Modified => FAN_MODIFY
  | ClosedAfterWrite => FAN_CLOSE_WRITE
  | ClosedWithoutWrite => FAN_CLOSE_NOWRITE
  | Opened => FAN_OPEN
  | DirectoryEvents => FAN_ONDIR
  | EventsOnChildren => FAN_EVENT_ON_CHILD
  end.

Definition category_name (c : category) : string :=
  match c with
  | Accessed => "ACCESS"
  | Modified => "MODIFY"
  | ClosedAfterWrite => "CLOSE_WRITE"
  | ClosedWithoutWrite => "CLOSE_NOWRITE"
  | Opened => "OPEN"
  | DirectoryEvents => "ONDIR"
  | EventsOnChildren => "EVENT_ON_CHILD"
  end.

Fixpoint lower (s : string) : string :=
  match s with
  | EmptyString => EmptyString
  | String c rest => String (tolower c) (lower rest)
  end.

(** [name] is the name of [c], bare or with the prefix, in any case. *)
Definition spells (name : string) (c : category) : Prop :=
  lower name = lower (category_name c)
  \/ lower name = lower ("FAN_" ++ category_name c).

(** [name] is one of the seven recognized names. *)
Definition recognized (name : string) : Prop := exists c, spells name c.

(** The base mask of the specification: all seven categories. *)
Definition base_mask : Z :=
  fold_left Z.lor (map category_bit categories) 0.

(** A mask directive with the name it was spelled with. *)
Inductive operation : Type :=
| Add
| Remove.

Record directive : Type := {
  d_operation : operation;
  d_name : string;
  d_category : category
}.

Definition token (o : operation) : string :=
  match o with
  | Add => "+e"
  | Remove => "-e"
  end.

Definition is_token (a : string) : bool :=
  String.eqb a "+e" || String.eqb a "-e".

(** The two arguments a directive is written with. *)
Definition directive_args (d : directive) : list string :=
  [token (d_operation d); d_name d].

(** Spec, section 4.1: "Add performs bitwise-OR of the category's bit; Remove
    performs bitwise-AND-NOT." *)
Definition apply (m : Z) (d : directive) : Z :=
  match d_operation d with
  | Add => Z.lor m (category_bit (d_category d))
  | Remove => Z.land m (Z.lnot (category_bit (d_category d)))
  end.

(** The mask the directives start from: zero when the first argument is the
    reset directive [+e], the base mask otherwise. *)
Definition starting_mask (argv : list string) : Z :=
  match argv with
  | _ :: a :: _ => if String.eqb a "+e" then 0 else base_mask
  | _ => base_mask
  end.


(** Arguments whose first one, if any, is not a directive token. *)
Definition starts_with_directory (args : list string) : Prop :=
  match args with
  | [] => False
  | a :: _ => is_token a = false
  end.

(** The value has no bit at position 64 or above. *)
Definition fits64 (m : Z) : Prop := Z.shiftr m 64 = 0.

(** A directive as it is written: the token and the name after it. *)
Definition pair_args (d : operation * string) : list string :=
  [token (fst d); snd d].

(** The effect of a written directive on the mask, with whatever the lookup
    gives for its name. *)
Definition apply_named (m : Z) (d : operation * string) : Z :=
  match fst d with
  | Add => Z.lor m (getmask (snd d))
  | Remove => Z.land m (Z.lnot (getmask (snd d)))
  end.

Definition written (d : directive) : operation * string :=
  (d_operation d, d_name d).

(** An environment in which both channels open and every mark is added. *)
Definition obliging (e : env) : Prop :=
  forall h,
    (forall s, 0 <= e _ h (sys_sigprocmask s))
    /\ (forall s, 0 <= e _ h (sys_signalfd s))
    /\ 0 <= e _ h sys_fanotify_init
    /\ (forall d m p, 0 <= e _ h (sys_fanotify_mark d FAN_MARK_ADD m p)).

(** A record as the kernel writes it: the fixed header, then [event_len]
    minus the header size further bytes. *)
Record wire_record : Type := {
  header : fanotify_event_metadata;
  extra : list byte
}.

Definition encode_metadata (m : fanotify_event_metadata) : list byte :=
  le_split 4 (event_len m) ++ le_split 1 (vers m) ++ le_split 1 (reserved m)
    ++ le_split 2 (metadata_len m) ++ le_split 8 (mask m)
    ++ le_split 4 (fd m) ++ le_split 4 (pid m).

Definition encode (r : wire_record) : list byte :=
  encode_metadata (header r) ++ extra r.




(** The record at [fst rec] lies, header and declared length, within the
    bytes of [buffer]. *)
Definition within (buffer : list byte) (rec : Z * fanotify_event_metadata)
  : Prop :=
  0 <= fst rec
  /\ FAN_EVENT_METADATA_LEN <= event_len (snd rec)
  /\ fst rec + event_len (snd rec) <= Z.of_nat (List.length buffer).

(** The body of the [while] loop of [main] run on each record of a list. *)
Fixpoint handle_records (records : list (Z * fanotify_event_metadata))
  : M unit :=
  match records with
  | [] => Ret tt
  | r :: rest => handle_record (snd r) ;; handle_records rest
  end.

(** The rendering the specification describes for the recorded arguments:
    a trailing separator trimmed, every other separator shown as a space. *)
Definition trim_trailing_separator (data : list byte) : list byte :=
  match rev data with
  | b :: front => if Byte.eqb b x00 then rev front else data
  | [] => []
  end.

Definition rendering_with_trim (data : list byte) : list byte :=
  map nul_to_space (trim_trailing_separator data).

(** Calls other than a mark or the release of a path. *)
Definition unmarked (c : call) : Prop :=
  match projT2 c with
  | sys_fanotify_mark _ _ _ _ | lib_free_path _ => False
  | _ => True
  end.

(** The calls of a clean exit: for each monitored path the removal of its
    mark and the release of its memory, then the release of the array, the
    closing of both channels and the last message. *)
Definition teardown (g : globals) (signal_fd fanotify_fd : Z) : trace :=
  flat_map
    (fun path =>
       [log (sys_fanotify_mark fanotify_fd FAN_MARK_REMOVE (event_mask g) path);
        log (lib_free_path path)])
    (monitors g)
  ++ [log lib_free_monitors; log (sys_close fanotify_fd);
      log (sys_close signal_fd);
      log (sys_stdout ("Exiting fanotify-cmdline example..."
                         ++ String newline "")%string)].

(** After the calls [h], the next [poll] reports the signal channel readable
    and the read on it hands back a whole [signalfd_siginfo] for [SIGINT] or
    [SIGTERM]. *)
Definition termination_signal (e : env) (signal_fd fanotify_fd : Z) (h : trace)
  : Prop :=
  exists revents_signal revents_fanotify data,
    e _ h (sys_poll signal_fd fanotify_fd)
    = Some (revents_signal, revents_fanotify)
    /\ has_flag revents_signal POLLIN = true
    /\ e _ (h ++ [log (sys_poll signal_fd fanotify_fd)])
         (sys_read signal_fd SIGNALFD_SIGINFO_LEN)
       = Some data
    /\ SIGNALFD_SIGINFO_LEN <= Z.of_nat (List.length data)
    /\ (le_combine (firstn 4 data) = SIGINT
        \/ le_combine (firstn 4 data) = SIGTERM).

(** ** Concrete inputs *)

(** One record of 24 bytes: an open of descriptor 5 by process 42. *)
Definition open_by_42 : wire_record :=
  {| header := {| event_len := 24; vers := 3; reserved := 0;
                  metadata_len := 24; mask := FAN_OPEN; fd := 5; pid := 42 |};
     extra := [] |}.


(** What [/proc/42/cmdline] holds for [ls -l]. *)
Definition cmdline_ls : list byte :=
  list_byte_of_string ("ls" ++ String zero ("-l" ++ String zero ""))%string.

(** A [signalfd_siginfo] for [SIGINT]. *)
Definition siginfo_int : list byte := le_split 4 SIGINT ++ repeat x00 124.

(** An environment in which every call succeeds.  The signal channel is
    descriptor 3, the fanotify channel 4, and [open] gives 7.  The first
    [poll] finds one event, [open_by_42]; from the second on a [SIGINT] is
    pending as well. *)
Definition calm_env : env :=
  fun R h c =>
    match c in sys R return R with
    | sys_open _ => 7
    | sys_read fd' _ =>
        if fd' =? 7 then Some cmdline_ls
        else if fd' =? 4 then Some (encode open_by_42)
        else if fd' =? 3 then Some siginfo_int
        else None
    | sys_readlink _ _ => Some (list_byte_of_string "/tmp/watched/file")
    | sys_close _ => 0
    | sys_time => 0
    | lib_ctime _ => ("Thu Jan  1 00:00:00 1970" ++ String newline "")%string
    | lib_strerror => "error"
    | sys_stdout _ => tt
    | sys_stderr _ => tt
    | lib_fflush => tt
    | sys_sigprocmask _ => 0
    | sys_signalfd _ => 3
    | sys_fanotify_init => 4
    | sys_fanotify_mark _ _ _ _ => 0
    | sys_poll _ _ =>
        if existsb (fun c => match projT2 c with
                             | sys_poll _ _ => true
                             | _ => false
                             end) h
        then Some (POLLIN, POLLIN)
        else Some (0, POLLIN)
    | lib_malloc _ => tt
    | lib_strdup _ => tt
    | lib_free_path _ => tt
    | lib_free_monitors => tt
    end.

(** The same, but every [read] fails and no signal is ever pending. *)
Definition failing_read_env : env :=
  fun R h c =>
    match c in sys R return R with
    | sys_read _ _ => None
    | sys_poll _ _ => Some (0, POLLIN)
    | c' => calm_env _ h c'
    end.

(** The same as [calm_env], but a signal is pending at once and the read on
    the signal channel fails. *)
Definition failing_signal_env : env :=
  fun R h c =>
    match c in sys R return R with
    | sys_read _ _ => None
    | sys_poll _ _ => Some (POLLIN, POLLIN)
    | c' => calm_env _ h c'
    end.

(** A command line with two directives, a directory, and two tokens after
    the directory. *)
Definition argv_tokens_after_directory : list string :=
  ["fanotify-cmdline"; "+e"; "OPEN"; "-e"; "bogus"; "dir"; "+e"; "-e"].

(** Three directives: remove [MODIFY], add [OPEN] and remove it again. *)
Definition directives_add_then_remove : list directive :=
  [ {| d_operation := Remove; d_name := "fan_modify"; d_category := Modified |};
    {| d_operation := Add; d_name := "Open"; d_category := Opened |};
    {| d_operation := Remove; d_name := "FAN_OPEN"; d_category := Opened |} ].

(** ** Further vocabulary, for the properties beyond the claims *)

(** A mask with no bit outside the seven categories. *)
Definition within_base (m : Z) : Prop := Z.lor m base_mask = base_mask.

(** Records that follow one another without gap from offset [off]. *)
Fixpoint contiguous (off : Z) (records : list (Z * fanotify_event_metadata))
  : Prop :=
  match records with
  | [] => True
  | r :: rest =>
      fst r = off /\ contiguous (off + event_len (snd r)) rest
  end.




(** An environment in which the first directory cannot be marked. *)
Definition refusing_env : env :=
  fun R h c =>
    match c in sys R return R with
    | sys_fanotify_mark _ _ _ p => if String.eqb p "/nonexistent" then -1 else 0
    | c' => calm_env _ h c'
    end.

(** A [signalfd_siginfo] for [SIGHUP], which the program does not expect. *)
Definition siginfo_hup : list byte := le_split 4 1 ++ repeat x00 124.

(** The signal channel delivers a [SIGHUP]; nothing else is pending. *)
Definition hangup_env : env :=
  fun R h c =>
    match c in sys R return R with
    | sys_read _ _ => Some siginfo_hup
    | sys_poll _ _ => Some (POLLIN, 0)
    | c' => calm_env _ h c'
    end.


(** ** Lemmas on the interaction monad *)

Lemma exec_bind {A B} (e : env) (p : M A) (f : A -> M B) (h : trace) :
  exec e (bind p f) h =
  match exec e p h with
  | (h', Done a) => exec e (f a) h'
  | (h', Stopped s) => (h', Stopped s)
  end.
Proof.
  revert h. induction p as [a | s | R c k IH]; intros h; simpl.
  - reflexivity.
  - reflexivity.
  - apply IH.
Qed.

Lemma collect_app {A} (f : call -> option A) (t1 t2 : trace) :
  collect f (t1 ++ t2) = collect f t1 ++ collect f t2.
Proof.
  induction t1 as [| c t1 IH]; simpl.
  - reflexivity.
  - destruct (f c); simpl; now rewrite IH.
Qed.

Lemma always_bind {A B} P H (p : M A) (f : A -> M B) :
  always P H p -> (forall a, always P H (f a)) -> always P H (bind p f).
Proof.
  intros Hp Hf. induction p as [a | s | R c k IH]; simpl in *.
  - apply Hf.
  - exact Hp.
  - destruct Hp as [Hc Hk]. split; [exact Hc |].
    intros r. apply IH, Hk.
Qed.

Lemma always_weaken {A} (P Q : call -> Prop) (H K : halt -> Prop) (p : M A) :
  (forall c, P c -> Q c) -> (forall h, H h -> K h) ->
  always P H p -> always Q K p.
Proof.
  intros HPQ HHK. induction p as [a | s | R c k IH]; simpl.
  - trivial.
  - apply HHK.
  - intros [Hc Hk]. split; [now apply HPQ |]. intros r. apply IH, Hk.
Qed.

(** What [always] says of a run: the calls added satisfy [P], and a run that
    stops early does so for a reason in [H]. *)
Lemma always_exec {A} P H (e : env) (p : M A) (h : trace) :
  always P H p ->
  exists t,
    fst (exec e p h) = h ++ t /\ Forall P t
    /\ (forall s, snd (exec e p h) = Stopped s -> H s).
Proof.
  revert h. induction p as [a | s | R c k IH]; intros h Hp; simpl in *.
  - exists []. rewrite app_nil_r. repeat split; [constructor | discriminate].
  - exists []. rewrite app_nil_r.
    repeat split; [constructor | now intros s' [= <-]].
  - destruct Hp as [Hc Hk].
    destruct (IH (e R h c) (h ++ [log c]) (Hk _)) as (t & Ht & HP & Hs).
    exists (log c :: t). rewrite Ht, <- app_assoc.
    repeat split; [now constructor | exact Hs].
Qed.

(** A program that never stops early runs to its end. *)
Lemma always_done {A} P (e : env) (p : M A) (h : trace) :
  always P never p ->
  exists t a, exec e p h = (h ++ t, Done a) /\ Forall P t.
Proof.
  intros Hp. destruct (always_exec P never e p h Hp) as (t & Ht & HP & Hs).
  destruct (exec e p h) as [h' [a | s]] eqn:E; simpl in *.
  - exists t, a. now subst h'.
  - destruct (Hs s eq_refl).
Qed.

Lemma collect_none {A} (f : call -> option A) (P : call -> Prop) (t : trace) :
  (forall c, P c -> f c = None) -> Forall P t -> collect f t = [].
Proof.
  intros HP Ht. induction Ht as [| c t Hc Ht IH]; simpl.
  - reflexivity.
  - now rewrite (HP c Hc).
Qed.

Lemma printing_reporting (c : call) : printing c -> reporting c.
Proof.
  destruct c as [R []]; simpl; intros H; try exact I; contradiction.
Qed.

Lemma reporting_no_mark (flags : Z) (c : call) :
  reporting c -> mark_of flags c = None.
Proof.
  destruct c as [R []]; simpl; intros H; try reflexivity; contradiction.
Qed.

Lemma reporting_no_free (c : call) : reporting c -> free_of c = None.
Proof.
  destruct c as [R []]; simpl; intros H; try reflexivity; contradiction.
Qed.

Lemma printing_no_close (c : call) : printing c -> close_of c = None.
Proof.
  destruct c as [R []]; simpl; intros H; try reflexivity; contradiction.
Qed.

(** ** Lemmas on category names *)

Lemma tolower_idem (c : ascii) : tolower (tolower c) = tolower c.
Proof.
  destruct c as [[] [] [] [] [] [] [] []]; reflexivity.
Qed.

Lemma strcasecmp_lower_l (a b : string) :
  strcasecmp (lower a) b = strcasecmp a b.
Proof.
  revert b. induction a as [| c a IH]; intros [| c' b]; simpl;
    rewrite ?tolower_idem; try reflexivity.
  now rewrite IH.
Qed.

Lemma starts_with_ci_lower (needle haystack : string) :
  starts_with_ci needle (lower haystack) = starts_with_ci needle haystack.
Proof.
  revert haystack.
  induction needle as [| c n IH]; intros [| c' h]; simpl; try reflexivity.
  now rewrite tolower_idem, IH.
Qed.

Lemma strcasestr_lower (haystack needle : string) :
  strcasestr (lower haystack) needle
  = option_map lower (strcasestr haystack needle).
Proof.
  induction haystack as [| c h IH].
  - simpl. destruct (starts_with_ci needle ""); reflexivity.
  - pose proof (starts_with_ci_lower needle (String c h)) as E.
    change (lower (String c h)) with (String (tolower c) (lower h)) in *.
    change (strcasestr (String (tolower c) (lower h)) needle)
      with (if starts_with_ci needle (String (tolower c) (lower h))
            then Some (String (tolower c) (lower h))
            else strcasestr (lower h) needle).
    change (strcasestr (String c h) needle)
      with (if starts_with_ci needle (String c h)
            then Some (String c h)
            else strcasestr h needle).
    rewrite E. destruct (starts_with_ci needle (String c h)).
    + reflexivity.
    + exact IH.
Qed.

Lemma advance_lower (n : nat) (p : string) :
  advance n (lower p) = lower (advance n p).
Proof.
  revert p. induction n as [| n IH]; intros [| c p]; simpl; try reflexivity.
  apply IH.
Qed.

Lemma fanmask_scan_lower (body : string) (table : list (string * Z)) :
  fanmask_scan (lower body) table = fanmask_scan body table.
Proof.
  induction table as [| [name value] table IH]; simpl.
  - reflexivity.
  - now rewrite strcasecmp_lower_l, IH.
Qed.

(** The lookup sees its argument through [tolower] only. *)
Lemma getmask_lower (name : string) : getmask (lower name) = getmask name.
Proof.
  unfold getmask. rewrite strcasestr_lower.
  destruct (strcasestr name "FAN_") as [p |]; cbn [option_map].
  - now rewrite advance_lower, fanmask_scan_lower.
  - apply fanmask_scan_lower.
Qed.

(** Each of the seven names, bare or prefixed and in any case, is looked up
    to the bit of its category. *)
Lemma getmask_spells (name : string) (c : category) :
  spells name c -> getmask name = category_bit c.
Proof.
  intros [H | H]; rewrite <- getmask_lower, H; destruct c; reflexivity.
Qed.

Lemma fanmask_scan_values (body : string) (table : list (string * Z)) :
  fanmask_scan body table = 0 \/ In (fanmask_scan body table) (map snd table).
Proof.
  induction table as [| [name value] table IH]; simpl.
  - now left.
  - destruct (strcasecmp body name =? 0).
    + right. now left.
    + destruct IH as [IH | IH]; [now left | right; now right].
Qed.

(** ** Lemmas on 64-bit masks *)

Lemma fits64_lor (a b : Z) : fits64 a -> fits64 b -> fits64 (Z.lor a b).
Proof.
  unfold fits64. intros Ha Hb. now rewrite Z.shiftr_lor, Ha, Hb.
Qed.

Lemma fits64_land (a b : Z) : fits64 a -> fits64 (Z.land a b).
Proof.
  unfold fits64. intros Ha. now rewrite Z.shiftr_land, Ha.
Qed.

Lemma fits64_high (m i : Z) : fits64 m -> 64 <= i -> Z.testbit m i = false.
Proof.
  unfold fits64. intros Hm Hi.
  replace i with (i - 64 + 64) by lia.
  rewrite <- Z.shiftr_spec by lia. rewrite Hm. apply Z.bits_0.
Qed.

(** On a 64-bit mask, [& ~b] in [uint64_t] is AND-NOT. *)
Lemma land_not64 (m b : Z) :
  fits64 m -> Z.land m (not64 b) = Z.land m (Z.lnot b).
Proof.
  intros Hm. apply Z.bits_inj'. intros i Hi.
  rewrite !Z.land_spec. unfold not64, uint64_max.
  rewrite Z.lxor_spec, Z.lnot_spec by lia.
  destruct (Z.ltb_spec i 64) as [Hlt | Hge].
  - change (2 ^ 64 - 1) with (Z.ones 64).
    rewrite Z.ones_spec_low by lia. now rewrite xorb_true_r.
  - rewrite (fits64_high m i Hm Hge). reflexivity.
Qed.

Lemma fits64_fanmask_scan (body : string) : fits64 (fanmask_scan body fanmask).
Proof.
  destruct (fanmask_scan_values body fanmask) as [H | H].
  - rewrite H. reflexivity.
  - set (v := fanmask_scan body fanmask) in *. clearbody v.
    unfold fanmask in H. cbn [map snd In] in H.
    repeat (destruct H as [H | H]; [subst v; reflexivity |]).
    contradiction.
Qed.

Lemma fits64_getmask (name : string) : fits64 (getmask name).
Proof.
  unfold getmask. apply fits64_fanmask_scan.
Qed.

Lemma base_mask_default : base_mask = event_mask_default.
Proof. reflexivity. Qed.

(** ** Lemmas on option parsing *)


Lemma not_token_eqb (a : string) :
  is_token a = false -> String.eqb a "+e" = false /\ String.eqb a "-e" = false.
Proof.
  unfold is_token. intros H. now apply orb_false_iff in H.
Qed.

Lemma apply_named_fits (m : Z) (d : operation * string) :
  fits64 m -> fits64 (apply_named m d).
Proof.
  intros Hm. destruct d as [[] name]; unfold apply_named; simpl.
  - apply fits64_lor; [exact Hm | apply fits64_getmask].
  - now apply fits64_land.
Qed.

(** One turn of the loop on a written directive. *)
Lemma parse_loop_pair (d : operation * string) (rest : list string) (i m : Z) :
  fits64 m ->
  parse_loop (pair_args d ++ rest) i m
  = parse_loop rest (i + 1 + 1) (apply_named m d).
Proof.
  intros Hm. destruct d as [[] name]; unfold apply_named; simpl.
  - destruct (Z.eqb_spec (getmask name) 0) as [E | E].
    + now rewrite E, Z.lor_0_r.
    + reflexivity.
  - destruct (Z.eqb_spec (getmask name) 0) as [E | E].
    + rewrite E. change (Z.lnot 0) with (-1). now rewrite Z.land_m1_r.
    + now rewrite land_not64.
Qed.

(** The loop consumes the written directives in order and stops where they
    end. *)
Lemma parse_loop_pairs (ps : list (operation * string)) (dirs : list string)
      (i m : Z) :
  fits64 m ->
  dirs = [] \/ starts_with_directory dirs ->
  parse_loop (flat_map pair_args ps ++ dirs) i m
  = (fold_left apply_named ps m, i + 2 * Z.of_nat (List.length ps)).
Proof.
  intros Hm Hdirs. revert i m Hm.
  induction ps as [| d ps IH]; intros i m Hm.
  - simpl. rewrite Z.add_0_r.
    destruct Hdirs as [-> | Hd]; [reflexivity |].
    destruct dirs as [| a dirs]; [contradiction |].
    simpl in Hd. apply not_token_eqb in Hd. destruct Hd as [H1 H2].
    simpl. now rewrite H1, H2.
  - cbn [flat_map]. rewrite <- app_assoc, parse_loop_pair by exact Hm.
    rewrite IH by now apply apply_named_fits.
    cbn [fold_left List.length]. f_equal. lia.
Qed.


(** The mask a run starts from, as the code computes it. *)
Lemma parse_options_eq (argv : list string) :
  parse_options argv = parse_loop (skipn 1 argv) 1 (starting_mask argv).
Proof.
  unfold parse_options, starting_mask.
  destruct argv as [| prog [| a rest]]; reflexivity.
Qed.

Lemma starting_mask_fits (argv : list string) : fits64 (starting_mask argv).
Proof.
  unfold starting_mask.
  destruct argv as [| prog [| a rest]]; try reflexivity.
  destruct (String.eqb a "+e"); reflexivity.
Qed.

Lemma apply_written (m : Z) (d : directive) :
  spells (d_name d) (d_category d) -> apply_named m (written d) = apply m d.
Proof.
  intros H. unfold apply_named, apply, written. simpl.
  now rewrite (getmask_spells _ _ H).
Qed.

Lemma fold_apply_written (ds : list directive) (m : Z) :
  Forall (fun d => spells (d_name d) (d_category d)) ds ->
  fold_left apply_named (map written ds) m = fold_left apply ds m.
Proof.
  intros H. revert m. induction H as [| d ds Hd Hds IH]; intros m; simpl.
  - reflexivity.
  - now rewrite apply_written, IH.
Qed.

Lemma flat_map_written (ds : list directive) :
  flat_map pair_args (map written ds) = flat_map directive_args ds.
Proof.
  induction ds as [| d ds IH]; simpl; [reflexivity | now rewrite IH].
Qed.

(** ** Lemmas on the decoder *)

Lemma load_in_range (buffer : list byte) (off : Z) (n : nat) :
  0 <= off -> off + Z.of_nat n <= Z.of_nat (List.length buffer) ->
  load buffer off n = Some (firstn n (skipn (Z.to_nat off) buffer)).
Proof.
  intros H0 H1. unfold load.
  destruct (Z.leb_spec 0 off); [| lia].
  destruct (Z.leb_spec (off + Z.of_nat n) (Z.of_nat (List.length buffer)));
    [reflexivity | lia].
Qed.











(** On any buffer at all the loop reads inside the buffer, ends before its
    fuel does, and yields only records that lie within the buffer. *)
Lemma fan_events_sound (buffer : list byte) (fuel : nat) :
  forall meta len,
    0 <= meta -> meta + len <= Z.of_nat (List.length buffer) ->
    (Z.to_nat len < fuel)%nat ->
    exists records,
      fan_events fuel buffer meta len = Done records
      /\ Forall (within buffer) records.
Proof.
  induction fuel as [| fuel IH]; intros meta len Hmeta Hlen Hfuel; [lia |].
  cbn [fan_events]. unfold FAN_EVENT_OK, FAN_EVENT_NEXT, FAN_EVENT_METADATA_LEN.
  destruct (Z.geb_spec len 24) as [Hge | Hlt];
    [| exists []; split; [reflexivity | constructor]].
  unfold load_metadata, load_uint.
  rewrite !load_in_range by lia. cbn [option_map].
  set (l := le_combine (firstn 4 (skipn (Z.to_nat meta) buffer))).
  destruct (Z.geb_spec l 24) as [Hl | Hl];
    [| exists []; split; [reflexivity | constructor]].
  destruct (Z.leb_spec l len) as [Hl' | Hl'];
    [| exists []; split; [reflexivity | constructor]].
  cbn [andb].
  destruct (IH (meta + l) (len - l)) as (rest & Hrest & Hin); try lia.
  rewrite Hrest. eexists. split; [reflexivity |].
  constructor; [| exact Hin].
  unfold within, FAN_EVENT_METADATA_LEN. cbn [fst snd event_len]. lia.
Qed.

Lemma decode_sound (buffer : list byte) :
  exists records, decode buffer = Done records /\ Forall (within buffer) records.
Proof.
  unfold decode, decode_fuel. apply fan_events_sound; lia.
Qed.



(** The loop of [main] hands exactly the decoded records to its body. *)
Lemma event_loop_fan_events (fuel : nat) (buffer : list byte) :
  forall meta len records,
    fan_events fuel buffer meta len = Done records ->
    event_loop fuel buffer meta len = handle_records records.
Proof.
  induction fuel as [| fuel IH]; intros meta len records; cbn [fan_events event_loop].
  - discriminate.
  - destruct (FAN_EVENT_OK buffer meta len) as [[|] |]; try discriminate.
    + destruct (load_metadata buffer meta) as [metadata |]; [| discriminate].
      destruct (FAN_EVENT_NEXT buffer meta len) as [[meta' len'] |];
        [| discriminate].
      destruct (fan_events fuel buffer meta' len') as [rest | s] eqn:E;
        [| discriminate].
      intros [= <-]. cbn [handle_records snd]. now rewrite (IH _ _ _ E).
    + intros [= <-]. reflexivity.
Qed.

(** ** What the reporting code calls *)

Create HintDb calls.

#[local] Hint Unfold printf eprintf open close read readlink perform exit when
  usage : calls.

(** Splits an [always] goal along the structure of the program. *)
Ltac always_tac :=
  repeat first
    [ apply always_bind
    | progress intros
    | match goal with
      | |- always _ _ (if ?b then _ else _) => destruct b
      | |- always _ _ (match ?x with _ => _ end) => destruct x
      | |- _ /\ _ => split
      end
    | exact I
    | discriminate
    | progress cbn [always]
    | progress autounfold with calls ].

Lemma get_file_path_from_fd_printing (fd' buffer_size : Z) :
  always printing never (get_file_path_from_fd fd' buffer_size).
Proof.
  unfold get_file_path_from_fd. always_tac.
Qed.

Lemma get_program_cmdline_from_pid_reporting (pid' buffer_size : Z) :
  always reporting never (get_program_cmdline_from_pid pid' buffer_size).
Proof.
  unfold get_program_cmdline_from_pid. always_tac.
Qed.

Lemma event_process_reporting (event : fanotify_event_metadata) :
  always reporting never (event_process event).
Proof.
  unfold event_process.
  repeat match goal with
    | |- always _ _ (get_program_cmdline_from_pid _ _) =>
        apply get_program_cmdline_from_pid_reporting
    | |- always _ _ (get_file_path_from_fd _ _) =>
        apply (always_weaken printing reporting never never);
        [ apply printing_reporting | trivial
        | apply get_file_path_from_fd_printing ]
    | |- always _ _ (bind _ _) => apply always_bind; [| intros ]
    end;
    always_tac.
Qed.

Lemma handle_record_reporting (metadata : fanotify_event_metadata) :
  always reporting never (handle_record metadata).
Proof.
  unfold handle_record. apply always_bind.
  - apply event_process_reporting.
  - always_tac.
Qed.

Lemma handle_records_reporting records :
  always reporting never (handle_records records).
Proof.
  induction records as [| r records IH]; cbn [handle_records].
  - exact I.
  - apply always_bind; [apply handle_record_reporting | intros; exact IH].
Qed.

(** The loop over a buffer never stops early: its fuel suffices and it reads
    within the buffer. *)
Lemma event_loop_reporting (buffer : list byte) :
  always reporting never
    (event_loop (decode_fuel buffer) buffer 0 (Z.of_nat (List.length buffer))).
Proof.
  destruct (decode_sound buffer) as (records & Hd & _).
  unfold decode in Hd. rewrite (event_loop_fan_events _ _ _ _ _ Hd).
  apply handle_records_reporting.
Qed.

Lemma fanotify_ready_reporting (fanotify_fd : Z) :
  always reporting never (fanotify_ready fanotify_fd).
Proof.
  unfold fanotify_ready, read, perform. cbn [bind always].
  split; [exact I |]. intros [data |]; cbn [bind always].
  - destruct (_ >? 0); [apply event_loop_reporting | exact I].
  - exact I.
Qed.

Lemma signal_ready_reporting (signal_fd : Z) :
  always reporting fuelled (signal_ready signal_fd).
Proof.
  unfold signal_ready, fuelled. always_tac.
Qed.

Lemma loop_body_reporting (signal_fd fanotify_fd : Z) :
  always reporting fuelled (loop_body signal_fd fanotify_fd).
Proof.
  unfold loop_body. apply always_bind; [always_tac |].
  intros [[rs rf] |].
  - apply always_bind.
    + destruct (has_flag rs POLLIN);
        [apply signal_ready_reporting | exact I].
    + intros [|]; [| exact I].
      apply always_bind; [| intros; exact I].
      unfold when. destruct (has_flag rf POLLIN); [| exact I].
      apply (always_weaken reporting reporting never fuelled);
        [trivial | intros ? [] | apply fanotify_ready_reporting].
  - unfold fuelled. always_tac.
Qed.

Lemma main_loop_reporting (fuel : nat) (signal_fd fanotify_fd : Z) :
  always reporting anyhow (main_loop fuel signal_fd fanotify_fd).
Proof.
  induction fuel as [| fuel IH]; cbn [main_loop].
  - exact I.
  - apply always_bind.
    + apply (always_weaken reporting reporting fuelled anyhow);
        [trivial | intros; exact I | apply loop_body_reporting].
    + intros [|]; [exact IH | exact I].
Qed.

(** ** Lemmas on metadata resolution *)

Lemma get_file_path_from_fd_invalid (e : env) (h : trace) (fd' buffer_size : Z) :
  fd' <= 0 -> exec e (get_file_path_from_fd fd' buffer_size) h = (h, Done None).
Proof.
  intros H. unfold get_file_path_from_fd.
  destruct (Z.leb_spec fd' 0); [reflexivity | lia].
Qed.

Lemma nul_to_space_not_nul (b : byte) : Byte.eqb (nul_to_space b) x00 = false.
Proof.
  unfold nul_to_space. destruct (Byte.eqb b x00) eqn:E; [reflexivity | exact E].
Qed.

(** A buffer without NUL before its terminator holds its bytes as a string. *)
Lemma c_str_terminated (l junk : list byte) :
  Forall (fun b => Byte.eqb b x00 = false) l ->
  c_str (l ++ x00 :: junk) = l.
Proof.
  induction 1 as [| b l Hb Hl IH]; simpl.
  - reflexivity.
  - now rewrite Hb, IH.
Qed.

Lemma c_str_nul_to_space (data : list byte) :
  c_str (map nul_to_space data ++ [x00]) = map nul_to_space data.
Proof.
  apply c_str_terminated. apply Forall_map, Forall_forall.
  intros b _. apply nul_to_space_not_nul.
Qed.

(** The run of [get_program_cmdline_from_pid], case by case. *)
Lemma get_program_cmdline_from_pid_exec (e : env) (h : trace)
      (pid' buffer_size : Z) :
  let path := ("/proc/" ++ string_of_Z pid' ++ "/cmdline")%string in
  let fd' := e _ h (sys_open path) in
  let h1 := h ++ [log (sys_open path)] in
  let answer := e _ h1 (sys_read fd' (buffer_size - 1)) in
  let h2 :=
    (h1 ++ [log (sys_read fd' (buffer_size - 1))]) ++ [log (sys_close fd')] in
  exec e (get_program_cmdline_from_pid pid' buffer_size) h =
  if fd' <? 0 then (h1, Done None)
  else
    match answer with
    | None => (h2, Done None)
    | Some data =>
        match firstn (Z.to_nat (buffer_size - 1)) data with
        | [] => (h2, Done None)
        | buffer => (h2, Done (Some (map nul_to_space buffer ++ [x00])))
        end
    end.
Proof.
  intros path fd' h1 answer h2.
  unfold get_program_cmdline_from_pid, open, read, close, perform.
  cbn [bind exec]. fold path. fold fd'. fold h1.
  destruct (fd' <? 0); [reflexivity |].
  cbn [bind exec]. fold answer.
  destruct answer as [data |]; cbn [bind exec].
  - destruct (firstn (Z.to_nat (buffer_size - 1)) data) as [| b buffer].
    + reflexivity.
    + destruct (Z.leb_spec (Z.of_nat (List.length (b :: buffer))) 0);
        [cbn [List.length] in *; lia |].
      reflexivity.
  - reflexivity.
Qed.

(** [get_program_cmdline_from_pid] runs to its end and closes nothing but
    the descriptor [open] gave it. *)
Lemma get_program_cmdline_from_pid_closes (e : env) (h : trace)
      (pid' buffer_size : Z) :
  exists t r,
    exec e (get_program_cmdline_from_pid pid' buffer_size) h = (h ++ t, Done r)
    /\ (collect close_of t = []
        \/ exists hh path, collect close_of t = [e Z hh (sys_open path)]).
Proof.
  rewrite get_program_cmdline_from_pid_exec. cbv zeta.
  set (path := ("/proc/" ++ string_of_Z pid' ++ "/cmdline")%string).
  set (fd' := e Z h (sys_open path)).
  destruct (fd' <? 0).
  - eexists _, _. split; [reflexivity | now left].
  - assert (C : collect close_of
                  ([log (sys_open path)]
                     ++ [log (sys_read fd' (buffer_size - 1))]
                     ++ [log (sys_close fd')]) = [fd'])
      by reflexivity.
    destruct (e _ _ (sys_read fd' (buffer_size - 1))) as [data |];
      [destruct (firstn (Z.to_nat (buffer_size - 1)) data) |];
      (eexists _, _; split; [rewrite <- !app_assoc; reflexivity |];
       right; exists h, path; exact C).
Qed.

(** ** Lemmas on descriptors *)

(** Runs the next piece of a sequence when that piece only prints. *)
Ltac step_printing :=
  rewrite exec_bind;
  match goal with
  | |- context [match exec ?e ?p ?h with _ => _ end] =>
      let t := fresh "t" in
      let a := fresh "a" in
      let E := fresh "E" in
      let F := fresh "F" in
      destruct (always_done printing e p h) as (t & a & E & F);
      [ first [ apply get_file_path_from_fd_printing | always_tac ]
      | rewrite E; clear E ]
  end.

Ltac forget_printing :=
  repeat match goal with
    | F : Forall printing ?t |- _ =>
        rewrite (collect_none close_of printing t printing_no_close F);
        clear F
    end.

(** [event_process] runs to its end; it closes the descriptor of the
    record once, after at most the descriptor it opened for the command
    line. *)
Lemma event_process_closes (e : env) (event : fanotify_event_metadata)
      (h : trace) :
  exists t extra,
    exec e (event_process event) h = (h ++ t, Done tt)
    /\ collect close_of t = extra ++ [fd event]
    /\ (extra = [] \/ exists hh path, extra = [e Z hh (sys_open path)]).
Proof.
  unfold event_process.
  do 11 step_printing.
  rewrite exec_bind.
  match goal with
  | |- context [exec e (get_program_cmdline_from_pid ?p ?b) ?hh] =>
      destruct (get_program_cmdline_from_pid_closes e hh p b)
        as (tc & r & Ec & Hc)
  end.
  rewrite Ec. clear Ec.
  do 2 step_printing.
  cbn [bind exec close perform].
  eexists _, (collect close_of tc). split; [| split].
  - rewrite <- !app_assoc. reflexivity.
  - rewrite !collect_app. forget_printing. reflexivity.
  - destruct Hc as [-> | (hh & path & ->)]; [now left | right; eauto].
Qed.

Lemma handle_record_closes (e : env) (metadata : fanotify_event_metadata)
      (h : trace) :
  exists t extra,
    exec e (handle_record metadata) h = (h ++ t, Done tt)
    /\ collect close_of t
       = extra ++ fd metadata :: (if fd metadata >? 0 then [fd metadata] else [])
    /\ (extra = [] \/ exists hh path, extra = [e Z hh (sys_open path)]).
Proof.
  unfold handle_record. rewrite exec_bind.
  destruct (event_process_closes e metadata h) as (t & extra & E & C & X).
  rewrite E. destruct (fd metadata >? 0).
  - cbn [bind exec close perform].
    exists (t ++ [log (sys_close (fd metadata))]), extra.
    split; [now rewrite app_assoc | split; [| exact X]].
    rewrite collect_app, C, <- app_assoc. reflexivity.
  - cbn [exec]. exists t, extra. now rewrite C.
Qed.

(** ** Lemmas on set-up and tear-down *)

Lemma unmarked_no_mark (flags : Z) (c : call) :
  unmarked c -> mark_of flags c = None.
Proof.
  destruct c as [R []]; simpl; intros H; try reflexivity; contradiction.
Qed.

Lemma unmarked_no_free (c : call) : unmarked c -> free_of c = None.
Proof.
  destruct c as [R []]; simpl; intros H; try reflexivity; contradiction.
Qed.

Lemma remove_marks_exec (e : env) (fanotify_fd m : Z) (paths : list string) :
  forall h,
    exec e (remove_marks fanotify_fd m paths) h
    = (h ++ flat_map
              (fun path =>
                 [log (sys_fanotify_mark fanotify_fd FAN_MARK_REMOVE m path);
                  log (lib_free_path path)])
              paths,
       Done tt).
Proof.
  induction paths as [| path paths IH]; intros h.
  - simpl. now rewrite app_nil_r.
  - cbn [remove_marks bind exec perform flat_map].
    rewrite IH, <- !app_assoc. reflexivity.
Qed.

(** The clean exit makes the calls of [teardown], whatever they return. *)
Lemma clean_exit_exec (e : env) (g : globals) (signal_fd fanotify_fd : Z)
      (h : trace) :
  exec e (clean_exit g signal_fd fanotify_fd) h
  = (h ++ teardown g signal_fd fanotify_fd, Done EXIT_SUCCESS).
Proof.
  unfold clean_exit, shutdown_fanotify, shutdown_signals, teardown.
  rewrite !exec_bind, remove_marks_exec.
  cbn [bind exec perform close printf]. now rewrite <- !app_assoc.
Qed.

Lemma teardown_marks_remove (g : globals) (signal_fd fanotify_fd : Z) :
  marks FAN_MARK_REMOVE (teardown g signal_fd fanotify_fd)
  = map (pair (event_mask g)) (monitors g).
Proof.
  unfold teardown, marks. rewrite collect_app. cbn [collect].
  change (mark_of FAN_MARK_REMOVE (log lib_free_monitors)) with (@None (Z * string)).
  cbn. rewrite app_nil_r.
  induction (monitors g) as [| path paths IH]; [reflexivity |].
  cbn [flat_map map app collect].
  change (mark_of FAN_MARK_REMOVE
            (log (sys_fanotify_mark fanotify_fd FAN_MARK_REMOVE (event_mask g) path)))
    with (Some (event_mask g, path)).
  change (mark_of FAN_MARK_REMOVE (log (lib_free_path path)))
    with (@None (Z * string)).
  now rewrite IH.
Qed.

Lemma teardown_marks_add (g : globals) (signal_fd fanotify_fd : Z) :
  marks FAN_MARK_ADD (teardown g signal_fd fanotify_fd) = [].
Proof.
  unfold teardown, marks. rewrite collect_app. cbn [collect].
  cbn. rewrite app_nil_r.
  induction (monitors g) as [| path paths IH]; [reflexivity |].
  cbn [flat_map map app collect].
  change (mark_of FAN_MARK_ADD
            (log (sys_fanotify_mark fanotify_fd FAN_MARK_REMOVE (event_mask g) path)))
    with (@None (Z * string)).
  change (mark_of FAN_MARK_ADD (log (lib_free_path path)))
    with (@None (Z * string)).
  exact IH.
Qed.

Lemma teardown_freed (g : globals) (signal_fd fanotify_fd : Z) :
  freed_paths (teardown g signal_fd fanotify_fd) = monitors g.
Proof.
  unfold teardown, freed_paths. rewrite collect_app. cbn [collect].
  cbn. rewrite app_nil_r.
  induction (monitors g) as [| path paths IH]; [reflexivity |].
  cbn [flat_map map app collect].
  change (free_of (log (sys_fanotify_mark fanotify_fd FAN_MARK_REMOVE (event_mask g) path)))
    with (@None string).
  change (free_of (log (lib_free_path path))) with (Some path).
  now rewrite IH.
Qed.

Ltac conjs := repeat match goal with |- _ /\ _ => split end.

(** What the loop of [initialize_fanotify] has done when it returns: no
    removal, no release; and when every mark was added, one addition per
    path, in order, with the mask it was given. *)
Lemma add_marks_exec (e : env) (fanotify_fd m : Z) (paths : list string) :
  forall done h,
  exists t ok paths',
    exec e (add_marks fanotify_fd m paths done) h = (h ++ t, Done (ok, paths'))
    /\ marks FAN_MARK_REMOVE t = []
    /\ freed_paths t = []
    /\ (ok = true ->
        paths' = done ++ paths /\ marks FAN_MARK_ADD t = map (pair m) paths)
    /\ ((forall hh p,
           0 <= e _ hh (sys_fanotify_mark fanotify_fd FAN_MARK_ADD m p)) ->
        ok = true).
Proof.
  induction paths as [| path paths IH]; intros done h.
  - exists [], true, done. cbn [add_marks exec]. rewrite !app_nil_r.
    conjs; try reflexivity; intros; conjs; reflexivity.
  - cbn [add_marks bind exec perform printf eprintf].
    match goal with
    | |- context [if ?r <? 0 then _ else _] =>
        destruct (Z.ltb_spec r 0) as [Hneg | Hpos]
    end.
    + cbn [bind exec]. eexists _, false, _. split; [| conjs].
      * rewrite <- !app_assoc. reflexivity.
      * reflexivity.
      * reflexivity.
      * discriminate.
      * intros Hall. specialize (Hall (h ++ [log (lib_strdup path)]) path). lia.
    + cbn [bind exec].
      match goal with
      | |- context [exec e (add_marks _ _ _ ?d) ?hh] =>
          destruct (IH d hh) as (t & ok & paths' & E & HR & HF & HA & HO)
      end.
      rewrite E. eexists _, ok, paths'. split; [| conjs].
      * rewrite <- !app_assoc. reflexivity.
      * unfold marks in *. cbn [app collect].
        change (mark_of FAN_MARK_REMOVE (log (lib_strdup path)))
          with (@None (Z * string)).
        change (mark_of FAN_MARK_REMOVE
                  (log (sys_fanotify_mark fanotify_fd FAN_MARK_ADD m path)))
          with (@None (Z * string)).
        cbn. exact HR.
      * unfold freed_paths in *. cbn. exact HF.
      * intros H. destruct (HA H) as [-> HA']. split.
        { now rewrite <- app_assoc. }
        unfold marks in *. cbn [app collect].
        change (mark_of FAN_MARK_ADD (log (lib_strdup path)))
          with (@None (Z * string)).
        change (mark_of FAN_MARK_ADD
                  (log (sys_fanotify_mark fanotify_fd FAN_MARK_ADD m path)))
          with (Some (m, path)).
        cbn. now rewrite HA'.
      * exact HO.
Qed.

Lemma initialize_signals_unmarked : always unmarked never initialize_signals.
Proof.
  unfold initialize_signals. always_tac.
Qed.

Lemma initialize_signals_obliging (e : env) (h : trace) :
  obliging e ->
  exists t signal_fd,
    exec e initialize_signals h = (h ++ t, Done signal_fd) /\ 0 <= signal_fd.
Proof.
  intros Hob. unfold initialize_signals. cbn [bind exec perform].
  destruct (Hob h) as (H1 & _).
  destruct (Z.ltb_spec (e Z h (sys_sigprocmask [SIGINT; SIGTERM])) 0) as [N | _];
    [specialize (H1 [SIGINT; SIGTERM]); lia |].
  cbn [bind exec perform].
  destruct (Hob (h ++ [log (sys_sigprocmask [SIGINT; SIGTERM])])) as (_ & H2 & _).
  specialize (H2 [SIGINT; SIGTERM]).
  match goal with
  | |- context [if ?r <? 0 then _ else _] => destruct (Z.ltb_spec r 0); [lia |]
  end.
  cbn [exec]. eexists _, _. split; [rewrite <- !app_assoc; reflexivity | exact H2].
Qed.

(** [initialize_fanotify], when it hands back a descriptor, has added one
    mark per directory with the mask of the globals, and stored them. *)
Lemma initialize_fanotify_exec (e : env) (g : globals) (argv : list string)
      (h : trace) :
  exists t fanotify_fd g',
    exec e (initialize_fanotify g argv) h = (h ++ t, Done (fanotify_fd, g'))
    /\ marks FAN_MARK_REMOVE t = []
    /\ freed_paths t = []
    /\ (0 <= fanotify_fd ->
        g' = {| event_mask := event_mask g; monitors := skipn 1 argv |}
        /\ marks FAN_MARK_ADD t = map (pair (event_mask g)) (skipn 1 argv))
    /\ (obliging e -> 0 <= fanotify_fd).
Proof.
  unfold initialize_fanotify. cbn [bind exec perform eprintf].
  destruct (Z.ltb_spec (e Z h sys_fanotify_init) 0) as [Hneg | Hpos].
  - cbn [bind exec]. eexists _, (-1), g. split; [| conjs].
    + rewrite <- !app_assoc. reflexivity.
    + reflexivity.
    + reflexivity.
    + lia.
    + intros Hob. destruct (Hob h) as (_ & _ & H3 & _). lia.
  - cbn [bind exec]. rewrite exec_bind.
    match goal with
    | |- context [exec e (add_marks ?f ?m ?p ?d) ?hh] =>
        destruct (add_marks_exec e f m p d hh)
          as (t & ok & paths' & E & HR & HF & HA & HO)
    end.
    rewrite E. destruct ok.
    + destruct (HA eq_refl) as [-> HA'].
      cbn [exec]. eexists _, _, _. split; [| conjs].
      * rewrite <- !app_assoc. reflexivity.
      * unfold marks in *. cbn. exact HR.
      * unfold freed_paths in *. cbn. exact HF.
      * intros _. rewrite app_nil_l. split; [reflexivity |].
        unfold marks in *. cbn. exact HA'.
      * intros _. exact Hpos.
    + cbn [exec]. eexists _, (-1), _. split; [| conjs].
      * rewrite <- !app_assoc. reflexivity.
      * unfold marks in *. cbn. exact HR.
      * unfold freed_paths in *. cbn. exact HF.
      * lia.
      * intros Hob. assert (false = true); [| discriminate].
        apply HO. intros hh p. destruct (Hob hh) as (_ & _ & _ & H4). apply H4.
Qed.

(** [startup] never removes a mark or releases a path; when it reaches the
    loop, the directories from [argv[i]] on are monitored, each marked once
    with the mask of the globals; in an obliging environment it does reach
    the loop. *)
Lemma startup_exec (e : env) (g : globals) (i : Z) (argv : list string)
      (h : trace) :
  1 <= i ->
  exists t r,
    exec e (startup g i argv) h = (h ++ t, r)
    /\ marks FAN_MARK_REMOVE t = []
    /\ freed_paths t = []
    /\ (forall signal_fd fanotify_fd g',
          r = Done (signal_fd, fanotify_fd, g') ->
          g' = {| event_mask := event_mask g;
                  monitors := skipn (Z.to_nat i) argv |}
          /\ marks FAN_MARK_ADD t
             = map (pair (event_mask g)) (skipn (Z.to_nat i) argv))
    /\ (obliging e -> exists state, r = Done state).
Proof.
  intros Hi. unfold startup. rewrite exec_bind.
  destruct (always_done unmarked e initialize_signals h
              initialize_signals_unmarked) as (t1 & signal_fd & E1 & F1).
  rewrite E1.
  assert (N1 : forall flags, marks flags t1 = [])
    by (intros flags; apply (collect_none _ unmarked);
        [apply unmarked_no_mark | exact F1]).
  assert (N2 : freed_paths t1 = [])
    by (apply (collect_none _ unmarked); [apply unmarked_no_free | exact F1]).
  replace (skipn (Z.to_nat i) argv)
    with (skipn 1 (skipn (Z.to_nat (i - 1)) argv))
    by (rewrite skipn_skipn; f_equal; lia).
  destruct (Z.ltb_spec signal_fd 0) as [Hneg | Hpos].
  - cbn [bind exec eprintf perform exit]. eexists _, _. split; [| conjs].
    + rewrite <- app_assoc. reflexivity.
    + unfold marks. rewrite collect_app. fold (marks FAN_MARK_REMOVE t1).
      now rewrite N1.
    + unfold freed_paths. rewrite collect_app. fold (freed_paths t1).
      now rewrite N2.
    + discriminate.
    + intros Hob.
      destruct (initialize_signals_obliging e h Hob) as (t' & s' & E' & Hs').
      rewrite E1 in E'. injection E' as _ <-. lia.
  - rewrite exec_bind.
    destruct (initialize_fanotify_exec e g (skipn (Z.to_nat (i - 1)) argv)
                (h ++ t1))
      as (t2 & fanotify_fd & g' & E2 & HR & HF & HA & HO).
    rewrite E2.
    destruct (Z.ltb_spec fanotify_fd 0) as [Hneg' | Hpos'].
    + cbn [bind exec eprintf perform exit]. eexists _, _. split; [| conjs].
      * rewrite <- !app_assoc. reflexivity.
      * unfold marks. rewrite !collect_app.
        fold (marks FAN_MARK_REMOVE t1). fold (marks FAN_MARK_REMOVE t2).
        now rewrite N1, HR.
      * unfold freed_paths. rewrite !collect_app.
        fold (freed_paths t1). fold (freed_paths t2). now rewrite N2, HF.
      * discriminate.
      * intros Hob. specialize (HO Hob). lia.
    + cbn [exec]. eexists _, _. split; [| conjs].
      * rewrite <- !app_assoc. reflexivity.
      * unfold marks. rewrite !collect_app.
        fold (marks FAN_MARK_REMOVE t1). fold (marks FAN_MARK_REMOVE t2).
        now rewrite N1, HR.
      * unfold freed_paths. rewrite !collect_app.
        fold (freed_paths t1). fold (freed_paths t2). now rewrite N2, HF.
      * intros s f g'' [= <- <- <-]. destruct (HA Hpos') as [-> HA'].
        split; [reflexivity |].
        unfold marks. rewrite !collect_app.
        fold (marks FAN_MARK_ADD t1). fold (marks FAN_MARK_ADD t2).
        now rewrite N1, HA'.
      * intros _. eexists. reflexivity.
Qed.

(** ** Lemmas on the event loop *)

(** A termination signal ends the turn with a [break], before any pending
    event is read. *)
Lemma loop_body_termination (e : env) (signal_fd fanotify_fd : Z) (h : trace) :
  termination_signal e signal_fd fanotify_fd h ->
  exec e (loop_body signal_fd fanotify_fd) h
  = ((h ++ [log (sys_poll signal_fd fanotify_fd)])
       ++ [log (sys_read signal_fd SIGNALFD_SIGINFO_LEN)],
     Done Break).
Proof.
  intros (rs & rf & data & Hpoll & Hflag & Hread & Hlen & Hsig).
  unfold loop_body. cbn [bind exec perform]. rewrite Hpoll.
  rewrite exec_bind, Hflag.
  unfold signal_ready, read. cbn [bind exec perform]. rewrite Hread.
  cbn [bind exec].
  unfold SIGNALFD_SIGINFO_LEN in *.
  assert (L : List.length (firstn (Z.to_nat 128) data) = Z.to_nat 128)
    by (apply firstn_length_le; lia).
  rewrite L.
  assert (F : firstn 4 (firstn (Z.to_nat 128) data) = firstn 4 data)
    by (rewrite firstn_firstn; f_equal).
  rewrite F.
  change (Z.of_nat (Z.to_nat 128) =? 128) with true. cbn [negb].
  assert (S : (le_combine (firstn 4 data) =? SIGINT)
              || (le_combine (firstn 4 data) =? SIGTERM) = true).
  { apply orb_true_iff.
    destruct Hsig as [-> | ->]; [left | right]; reflexivity. }
  rewrite S. reflexivity.
Qed.

(** Turns of the loop that left the program running can be followed by
    more turns. *)
Lemma main_loop_resume (e : env) (signal_fd fanotify_fd : Z) (k m : nat) :
  forall h0 h,
    exec e (main_loop k signal_fd fanotify_fd) h0 = (h, Stopped Unfinished) ->
    exec e (main_loop (k + m) signal_fd fanotify_fd) h0
    = exec e (main_loop m signal_fd fanotify_fd) h.
Proof.
  induction k as [| k IH]; intros h0 h Hk.
  - cbn [main_loop exec] in Hk. injection Hk as <-. reflexivity.
  - cbn [main_loop Nat.add] in *. rewrite exec_bind in *.
    destruct (always_exec reporting fuelled e
                (loop_body signal_fd fanotify_fd) h0
                (loop_body_reporting _ _)) as (t & _ & _ & Hs).
    destruct (exec e (loop_body signal_fd fanotify_fd) h0) as [h1 [[|] | s]].
    + now apply IH.
    + discriminate.
    + injection Hk as <- ->. destruct (Hs Unfinished eq_refl eq_refl).
Qed.

(** Past the two usage checks, [main] is the set-up followed by the loop. *)
Lemma main_unfold (fuel : nat) (argv : list string) (m i : Z) :
  2 <= Z.of_nat (List.length argv) ->
  parse_options argv = (m, i) ->
  i < Z.of_nat (List.length argv) ->
  main fuel argv
  = (' (signal_fd, fanotify_fd, g) <-
       startup {| event_mask := m; monitors := [] |} i argv ;;
     running fuel g signal_fd fanotify_fd).
Proof.
  intros Hargc Hparse Hi. unfold main. rewrite Hparse.
  destruct (Z.ltb_spec (Z.of_nat (List.length argv)) 2); [lia |].
  destruct (Z.leb_spec (Z.of_nat (List.length argv)) i); [lia |].
  reflexivity.
Qed.

Lemma parse_loop_index_bounded (n : nat) :
  forall args i m,
    (List.length args <= n)%nat -> i <= snd (parse_loop args i m).
Proof.
  induction n as [| n IH]; intros [| a [| name rest]] i m Hn;
    cbn [List.length] in Hn; try lia; cbn [parse_loop].
  - simpl. lia.
  - simpl. lia.
  - destruct (String.eqb a "+e"), (String.eqb a "-e"); simpl; lia.
  - assert (R : forall i m, i <= snd (parse_loop rest i m))
      by (intros; apply IH; lia).
    destruct (String.eqb a "+e");
      [| destruct (String.eqb a "-e")];
      try (etransitivity; [| apply R]; lia).
    simpl. lia.
Qed.

(** The loop never ends before the index it started at. *)
Lemma parse_loop_index (args : list string) (i m : Z) :
  i <= snd (parse_loop args i m).
Proof.
  now apply (parse_loop_index_bounded (List.length args)).
Qed.

(** * The claims *)

(** ** C9: descriptors that are never looked up *)

(** C9.  Path resolution returns [NULL] for every descriptor that is zero or
    negative, the sentinel [-1] and the legal descriptor [0] alike, and makes
    no call at all for it: the trace of the run is the trace it started
    with. *)
Theorem C9_nonpositive_descriptor_unresolved
        (e : env) (h : trace) (fd' buffer_size : Z) :
  fd' <= 0 ->
  exec e (get_file_path_from_fd fd' buffer_size) h = (h, Done None)
  /\ collect readlink_of (fst (exec e (get_file_path_from_fd fd' buffer_size) h))
     = collect readlink_of h.
Proof.
  intros H. rewrite (get_file_path_from_fd_invalid e h fd' buffer_size H).
  split; reflexivity.
Qed.

Lemma C9_witness_descriptor_zero :
  exec calm_env (get_file_path_from_fd 0 PATH_MAX) [] = ([], Done None)
  /\ collect readlink_of
       (fst (exec calm_env (get_file_path_from_fd 0 PATH_MAX) []))
     = collect readlink_of [].
Proof.
  apply (C9_nonpositive_descriptor_unresolved calm_env [] 0 PATH_MAX). lia.
Defined.

(** ** C8: no directory, no initialization *)



(** ** C6: the lookup of category names *)

(** C6, at the input where the code departs from it.  The name
    [xFAN_OPEN] is not one of the seven names, bare or prefixed, in any
    case; yet [getmask] does not answer [0] for it but the bit of [OPEN]:
    [strcasestr] finds the prefix anywhere in the name, and whatever stands
    before it is dropped. *)
Theorem C6_getmask_accepts_text_before_prefix :
  ~ recognized "xFAN_OPEN"
  /\ getmask "xFAN_OPEN" = FAN_OPEN
  /\ getmask "xFAN_OPEN" <> 0.
Proof.
  conjs.
  - intros [c [H | H]]; destruct c; discriminate H.
  - reflexivity.
  - discriminate.
Qed.

(** ** C4: the mask as a fold over the directives *)

Lemma add_then_remove_clears (m b : Z) :
  Z.land (Z.land (Z.lor m b) (Z.lnot b)) b = Z.land 0 b.
Proof.
  rewrite <- Z.land_assoc, (Z.land_comm (Z.lnot b) b), Z.land_lnot_diag.
  now rewrite Z.land_0_r, Z.land_0_l.
Qed.

(** C4.  For every sequence of Add and Remove directives whose names spell
    recognized categories, followed by the directories, the mask [main]
    computes is the left fold over the directives, in order, of bitwise OR
    (Add) and bitwise AND-NOT (Remove) of the category's bit, started from
    zero when the first argument is the reset directive [+e] and from the
    base mask of all seven categories otherwise.  In particular, when the
    last two directives add and then remove the same category, that
    category's bit is what it is in the zero mask. *)
Theorem C4_mask_is_fold_of_directives
        (prog : string) (ds : list directive) (dirs : list string) :
  Forall (fun d => spells (d_name d) (d_category d)) ds ->
  dirs = [] \/ starts_with_directory dirs ->
  let argv := prog :: flat_map directive_args ds ++ dirs in
  fst (parse_options argv) = fold_left apply ds (starting_mask argv)
  /\ (forall front a r,
        ds = front ++ [a; r] ->
        d_operation a = Add -> d_operation r = Remove ->
        d_category a = d_category r ->
        Z.land (fst (parse_options argv)) (category_bit (d_category a))
        = Z.land 0 (category_bit (d_category a))).
Proof.
  intros Hds Hdirs argv.
  assert (E : fst (parse_options argv) = fold_left apply ds (starting_mask argv)).
  { rewrite parse_options_eq. subst argv. cbn [skipn].
    rewrite <- flat_map_written, parse_loop_pairs;
      [| apply starting_mask_fits | exact Hdirs].
    cbn [fst]. now apply fold_apply_written. }
  split; [exact E |].
  intros front a r -> Ha Hr Hc. rewrite E, fold_left_app. cbn [fold_left].
  unfold apply at 1 2. rewrite Ha, Hr, <- Hc.
  apply add_then_remove_clears.
Qed.

Lemma C4_witness_add_then_remove :
  fst (parse_options
         ("fanotify-cmdline"
            :: flat_map directive_args directives_add_then_remove ++ ["/tmp"]))
  = fold_left apply directives_add_then_remove
      (starting_mask
         ("fanotify-cmdline"
            :: flat_map directive_args directives_add_then_remove ++ ["/tmp"]))
  /\ (forall front a r,
        directives_add_then_remove = front ++ [a; r] ->
        d_operation a = Add -> d_operation r = Remove ->
        d_category a = d_category r ->
        Z.land
          (fst (parse_options
                  ("fanotify-cmdline"
                     :: flat_map directive_args directives_add_then_remove
                     ++ ["/tmp"])))
          (category_bit (d_category a))
        = Z.land 0 (category_bit (d_category a))).
Proof.
  apply (C4_mask_is_fold_of_directives "fanotify-cmdline"
           directives_add_then_remove ["/tmp"]).
  - apply Forall_cons; [right; reflexivity |].
    apply Forall_cons; [left; reflexivity |].
    apply Forall_cons; [right; reflexivity | apply Forall_nil].
  - right. reflexivity.
Defined.

(** ** C3: the decoder *)





(** ** C10: where directive parsing stops *)

Lemma skipn_pairs (ps : list (operation * string)) (l : list string) :
  skipn (2 * List.length ps) (flat_map pair_args ps ++ l) = l.
Proof.
  induction ps as [| p ps IH]; [reflexivity |].
  cbn [List.length]. replace (2 * S (List.length ps))%nat
    with (S (S (2 * List.length ps))) by lia.
  exact IH.
Qed.

Lemma length_pairs (ps : list (operation * string)) :
  List.length (flat_map pair_args ps) = (2 * List.length ps)%nat.
Proof.
  induction ps as [| p ps IH]; [reflexivity |].
  cbn [flat_map pair_args app List.length]. rewrite IH. lia.
Qed.

(** Neither the loop nor the clean exit adds a mark. *)
Lemma running_adds_no_mark (e : env) (fuel : nat) (g : globals)
      (signal_fd fanotify_fd : Z) (h : trace) :
  exists t,
    fst (exec e (running fuel g signal_fd fanotify_fd) h) = h ++ t
    /\ marks FAN_MARK_ADD t = [].
Proof.
  unfold running. rewrite exec_bind.
  destruct (always_exec reporting anyhow e
              (main_loop fuel signal_fd fanotify_fd) h
              (main_loop_reporting _ _ _)) as (t & Ht & HP & _).
  assert (N : marks FAN_MARK_ADD t = [])
    by (apply (collect_none _ reporting);
        [apply reporting_no_mark | exact HP]).
  destruct (exec e (main_loop fuel signal_fd fanotify_fd) h) as [h' [[] | s]];
    cbn [fst] in Ht; subst h'.
  - rewrite clean_exit_exec. cbn [fst].
    exists (t ++ teardown g signal_fd fanotify_fd).
    split; [now rewrite app_assoc |].
    unfold marks in *. rewrite collect_app, N.
    apply teardown_marks_add.
  - exists t. now split.
Qed.

(** In an obliging environment the marks [main] adds are those of the
    directories from [argv[i]] on, whether or not the loop ever ends. *)
Lemma main_marks_add (e : env) (fuel : nat) (argv : list string) (m i : Z) :
  2 <= Z.of_nat (List.length argv) ->
  parse_options argv = (m, i) ->
  i < Z.of_nat (List.length argv) ->
  obliging e ->
  marks FAN_MARK_ADD (fst (exec e (main fuel argv) []))
  = map (pair m) (skipn (Z.to_nat i) argv).
Proof.
  intros Hargc Hparse Hi Hob.
  assert (H1 : 1 <= i).
  { pose proof (parse_loop_index (skipn 1 argv) 1 (starting_mask argv)) as P.
    rewrite <- parse_options_eq, Hparse in P. exact P. }
  rewrite (main_unfold fuel argv m i Hargc Hparse Hi), exec_bind.
  destruct (startup_exec e {| event_mask := m; monitors := [] |} i argv [] H1)
    as (t & r & E & _ & _ & HA & HO).
  rewrite E. destruct (HO Hob) as [[[signal_fd fanotify_fd] g] ->].
  destruct (HA _ _ _ eq_refl) as [_ HA'].
  destruct (running_adds_no_mark e fuel g signal_fd fanotify_fd ([] ++ t))
    as (t' & Ht' & N).
  rewrite Ht'. unfold marks in *. rewrite !collect_app, N, app_nil_r.
  exact HA'.
Qed.

(** C10.  Let the arguments after the program name be any number of written
    directives (a token [+e] or [-e] and whatever follows it as a name),
    then an argument [x] that is neither token, then any arguments [rest].
    The parsing loop stops at [x]; the arguments from [x] on, [rest] as it
    is, tokens included, are the directories: they are what [main] marks
    with the parsed mask when both channels open and every mark is added;
    and the parsed mask is the fold of the written directives started from
    zero exactly when the very first argument is [+e], so that a [+e] at
    any later place only adds its category. *)
Theorem C10_parsing_stops_at_first_directory
        (prog : string) (ps : list (operation * string)) (x : string)
        (rest : list string) :
  is_token x = false ->
  let argv := prog :: flat_map pair_args ps ++ x :: rest in
  snd (parse_options argv) = 1 + 2 * Z.of_nat (List.length ps)
  /\ skipn (Z.to_nat (snd (parse_options argv))) argv = x :: rest
  /\ fst (parse_options argv)
     = fold_left apply_named ps
         match ps with
         | (Add, _) :: _ => 0
         | _ => event_mask_default
         end
  /\ (forall e fuel,
        obliging e ->
        marks FAN_MARK_ADD (fst (exec e (main fuel argv) []))
        = map (pair (fst (parse_options argv))) (x :: rest)).
Proof.
  intros Hx argv.
  assert (P : parse_options argv
              = (fold_left apply_named ps (starting_mask argv),
                 1 + 2 * Z.of_nat (List.length ps))).
  { rewrite parse_options_eq. subst argv. cbn [skipn].
    apply parse_loop_pairs; [apply starting_mask_fits | right; exact Hx]. }
  assert (S : skipn (Z.to_nat (1 + 2 * Z.of_nat (List.length ps))) argv
              = x :: rest).
  { subst argv.
    replace (Z.to_nat (1 + 2 * Z.of_nat (List.length ps)))
      with (S (2 * List.length ps)) by lia.
    cbn [skipn]. apply skipn_pairs. }
  assert (M : starting_mask argv
              = match ps with
                | (Add, _) :: _ => 0
                | _ => event_mask_default
                end).
  { subst argv. destruct ps as [| [[] name] ps]; cbn.
    - apply not_token_eqb in Hx. destruct Hx as [-> _]. reflexivity.
    - reflexivity.
    - reflexivity. }
  rewrite P. cbn [fst snd]. conjs.
  - reflexivity.
  - exact S.
  - now rewrite M.
  - intros e fuel Hob. rewrite <- S.
    apply main_marks_add; [| exact P | | exact Hob].
    + subst argv. cbn [List.length]. rewrite length_app. cbn [List.length]. lia.
    + subst argv. cbn [List.length].
      rewrite length_app, length_pairs. cbn [List.length]. lia.
Qed.

Lemma calm_env_obliging : obliging calm_env.
Proof.
  intros h. conjs; intros; simpl; lia.
Qed.

Lemma C10_witness_tokens_after_directory :
  snd (parse_options argv_tokens_after_directory) = 5
  /\ skipn 5 argv_tokens_after_directory = ["dir"; "+e"; "-e"]
  /\ fst (parse_options argv_tokens_after_directory) = FAN_OPEN
  /\ marks FAN_MARK_ADD
       (fst (exec calm_env (main 2 argv_tokens_after_directory) []))
     = [(FAN_OPEN, "dir"); (FAN_OPEN, "+e"); (FAN_OPEN, "-e")].
Proof.
  destruct (C10_parsing_stops_at_first_directory "fanotify-cmdline"
              [(Add, "OPEN"); (Remove, "bogus")] "dir" ["+e"; "-e"] eq_refl)
    as (H1 & H2 & H3 & H4).
  conjs; [exact H1 | exact H2 | exact H3 |].
  exact (H4 calm_env 2%nat calm_env_obliging).
Defined.

(** ** C1: how often a record's descriptor is closed *)

(** C1, on the records where the code departs from it.  For every record
    whose descriptor is positive, what [main] does with the record runs to
    its end and calls [close] on that descriptor twice, once at the end of
    [event_process] and once more in the loop of [main], in every
    environment (the kernel never hands out, for the command-line file, the
    descriptor the record still holds). *)
Theorem C1_positive_descriptor_closed_twice
        (e : env) (metadata : fanotify_event_metadata) (h : trace) :
  0 < fd metadata ->
  (forall hh path, e Z hh (sys_open path) <> fd metadata) ->
  exists t,
    exec e (handle_record metadata) h = (h ++ t, Done tt)
    /\ close_count (fd metadata) t = 2%nat.
Proof.
  intros Hfd Hopen.
  destruct (handle_record_closes e metadata h) as (t & extra & E & C & X).
  exists t. split; [exact E |].
  unfold close_count. rewrite C.
  destruct (Z.gtb_spec (fd metadata) 0); [| lia].
  rewrite count_occ_app. cbn [count_occ].
  destruct (Z.eq_dec (fd metadata) (fd metadata)); [| contradiction].
  destruct X as [-> | (hh & path & ->)]; [reflexivity |].
  cbn [count_occ].
  destruct (Z.eq_dec (e Z hh (sys_open path)) (fd metadata)) as [Eq | _];
    [now apply Hopen in Eq | reflexivity].
Qed.

Lemma C1_witness_descriptor_5 :
  exists t,
    exec calm_env (handle_record (header open_by_42)) [] = ([] ++ t, Done tt)
    /\ close_count 5 t = 2%nat.
Proof.
  apply (C1_positive_descriptor_closed_twice calm_env (header open_by_42) []).
  - simpl. lia.
  - intros hh path. simpl. lia.
Defined.

(** ** C7: the command line of a process *)

(** C7 as it is stated fails: for the recorded arguments of [ls -l], which
    end with a separator, the string handed back is [ls -l ] with a space at
    its end, not the trimmed [ls -l]. *)
Lemma C7_counterexample_trailing_separator_kept :
  exists buffer,
    snd (exec calm_env (get_program_cmdline_from_pid 42 PATH_MAX) [])
    = Done (Some buffer)
    /\ c_str buffer = list_byte_of_string "ls -l "
    /\ rendering_with_trim cmdline_ls = list_byte_of_string "ls -l"
    /\ c_str buffer <> rendering_with_trim cmdline_ls.
Proof.
  eexists. conjs.
  - vm_compute. reflexivity.
  - vm_compute. reflexivity.
  - vm_compute. reflexivity.
  - vm_compute. discriminate.
Qed.

(** C7, amended.  Command-line resolution opens [/proc/<pid>/cmdline] and
    reads once, at most [buffer_size - 1] bytes.  It never stops the
    program.  It returns [NULL] when the file cannot be opened (as for a
    process that has exited), when the read fails and when the read returns
    no bytes; in the last two cases the descriptor is closed first.
    Otherwise it closes the descriptor and returns the bytes read with every
    argument separator replaced by a space, the trailing one included: a
    trailing separator is shown as a trailing space, it is not trimmed. *)
Theorem C7_cmdline_separators_become_spaces
        (e : env) (h : trace) (pid' buffer_size : Z) :
  let path := ("/proc/" ++ string_of_Z pid' ++ "/cmdline")%string in
  let fd' := e _ h (sys_open path) in
  let h1 := h ++ [log (sys_open path)] in
  let answer := e _ h1 (sys_read fd' (buffer_size - 1)) in
  let h2 :=
    (h1 ++ [log (sys_read fd' (buffer_size - 1))]) ++ [log (sys_close fd')] in
  let run := exec e (get_program_cmdline_from_pid pid' buffer_size) h in
  (fd' < 0 -> run = (h1, Done None))
  /\ (0 <= fd' -> answer = None -> run = (h2, Done None))
  /\ (forall data,
        0 <= fd' -> answer = Some data ->
        firstn (Z.to_nat (buffer_size - 1)) data = [] ->
        run = (h2, Done None))
  /\ (forall data,
        0 <= fd' -> answer = Some data ->
        firstn (Z.to_nat (buffer_size - 1)) data <> [] ->
        exists buffer,
          run = (h2, Done (Some buffer))
          /\ c_str buffer
             = map nul_to_space (firstn (Z.to_nat (buffer_size - 1)) data)).
Proof.
  intros path fd' h1 answer h2 run. subst run.
  rewrite get_program_cmdline_from_pid_exec. cbv zeta.
  fold path. fold fd'. fold h1. fold answer. fold h2.
  conjs.
  - intros H. destruct (Z.ltb_spec fd' 0); [reflexivity | lia].
  - intros H ->. destruct (Z.ltb_spec fd' 0); [lia | reflexivity].
  - intros data H -> ->. destruct (Z.ltb_spec fd' 0); [lia | reflexivity].
  - intros data H -> Hne. destruct (Z.ltb_spec fd' 0); [lia |].
    destruct (firstn (Z.to_nat (buffer_size - 1)) data) as [| b buffer];
      [contradiction |].
    eexists. split; [reflexivity | apply c_str_nul_to_space].
Qed.

Lemma C7_witness_ls :
  exists buffer,
    exec calm_env (get_program_cmdline_from_pid 42 PATH_MAX) []
    = ([log (sys_open "/proc/42/cmdline"); log (sys_read 7 4095);
        log (sys_close 7)],
       Done (Some buffer))
    /\ c_str buffer = map nul_to_space (firstn 4095 cmdline_ls).
Proof.
  apply (proj2 (proj2 (proj2
           (C7_cmdline_separators_become_spaces calm_env [] 42 PATH_MAX)))
           cmdline_ls).
  - simpl. lia.
  - reflexivity.
  - vm_compute. discriminate.
Defined.

(** ** C2: read errors while running *)

Lemma loop_body_signal_error (e : env) (signal_fd fanotify_fd : Z) (h : trace)
      (rs rf : Z) :
  e _ h (sys_poll signal_fd fanotify_fd) = Some (rs, rf) ->
  has_flag rs POLLIN = true ->
  e _ (h ++ [log (sys_poll signal_fd fanotify_fd)])
    (sys_read signal_fd SIGNALFD_SIGINFO_LEN) = None ->
  exec e (loop_body signal_fd fanotify_fd) h
  = (((h ++ [log (sys_poll signal_fd fanotify_fd)])
        ++ [log (sys_read signal_fd SIGNALFD_SIGINFO_LEN)])
       ++ [log (sys_stderr ("Couldn't read signal, wrong size read"
                              ++ String newline "")%string)],
     Stopped (Exited EXIT_FAILURE)).
Proof.
  intros Hpoll Hflag Hread.
  unfold loop_body. cbn [bind exec perform]. rewrite Hpoll.
  rewrite exec_bind, Hflag.
  unfold signal_ready, read. cbn [bind exec perform]. rewrite Hread.
  reflexivity.
Qed.

Lemma loop_body_fanotify_error (e : env) (signal_fd fanotify_fd : Z)
      (h : trace) (rs rf : Z) :
  e _ h (sys_poll signal_fd fanotify_fd) = Some (rs, rf) ->
  has_flag rs POLLIN = false ->
  has_flag rf POLLIN = true ->
  e _ (h ++ [log (sys_poll signal_fd fanotify_fd)])
    (sys_read fanotify_fd FANOTIFY_BUFFER_SIZE) = None ->
  exec e (loop_body signal_fd fanotify_fd) h
  = ((h ++ [log (sys_poll signal_fd fanotify_fd)])
       ++ [log (sys_read fanotify_fd FANOTIFY_BUFFER_SIZE)],
     Done Continue).
Proof.
  intros Hpoll Hs Hf Hread.
  unfold loop_body. cbn [bind exec perform]. rewrite Hpoll.
  rewrite exec_bind, Hs. cbn [exec]. rewrite exec_bind, Hf.
  unfold when, fanotify_ready, read. cbn [bind exec perform]. rewrite Hread.
  reflexivity.
Qed.

(** C2 as it is stated fails on the notification channel: with
    [failing_read_env] the read on that channel returns an error, the turn of
    the loop ends with [Continue] instead of an exit, and after three such
    turns [main] is still running. *)
Lemma C2_counterexample_notification_read_error :
  failing_read_env _ [log (sys_poll 3 4)] (sys_read 4 FANOTIFY_BUFFER_SIZE)
  = None
  /\ exec failing_read_env (loop_body 3 4) []
     = ([log (sys_poll 3 4); log (sys_read 4 FANOTIFY_BUFFER_SIZE)],
        Done Continue)
  /\ snd (exec failing_read_env (main 3 ["fanotify-cmdline"; "/tmp"]) [])
     = Stopped Unfinished.
Proof.
  conjs; vm_compute; reflexivity.
Qed.

(** C2, amended.  While the loop runs, an error returned by the read on the
    signal channel ends the process at once with [EXIT_FAILURE]: after the
    [poll] and the failed [read] the only call is the message on standard
    error, so no mark is removed, nothing is released and no channel is
    closed.  An error returned by the read on the notification channel is
    not fatal: the turn makes no further call and the loop goes on to its
    next turn. *)
Theorem C2_read_errors_while_running
        (e : env) (g : globals) (signal_fd fanotify_fd : Z) (fuel : nat)
        (h : trace) (rs rf : Z) :
  e _ h (sys_poll signal_fd fanotify_fd) = Some (rs, rf) ->
  (has_flag rs POLLIN = true ->
   e _ (h ++ [log (sys_poll signal_fd fanotify_fd)])
     (sys_read signal_fd SIGNALFD_SIGINFO_LEN) = None ->
   exists line,
     exec e (running (S fuel) g signal_fd fanotify_fd) h
     = (((h ++ [log (sys_poll signal_fd fanotify_fd)])
           ++ [log (sys_read signal_fd SIGNALFD_SIGINFO_LEN)])
          ++ [log (sys_stderr line)],
        Stopped (Exited EXIT_FAILURE)))
  /\ (has_flag rs POLLIN = false ->
      has_flag rf POLLIN = true ->
      e _ (h ++ [log (sys_poll signal_fd fanotify_fd)])
        (sys_read fanotify_fd FANOTIFY_BUFFER_SIZE) = None ->
      exec e (loop_body signal_fd fanotify_fd) h
      = ((h ++ [log (sys_poll signal_fd fanotify_fd)])
           ++ [log (sys_read fanotify_fd FANOTIFY_BUFFER_SIZE)],
         Done Continue)
      /\ exec e (running (S fuel) g signal_fd fanotify_fd) h
         = exec e (running fuel g signal_fd fanotify_fd)
             ((h ++ [log (sys_poll signal_fd fanotify_fd)])
                ++ [log (sys_read fanotify_fd FANOTIFY_BUFFER_SIZE)])).
Proof.
  intros Hpoll. split.
  - intros Hflag Hread. eexists.
    unfold running. cbn [main_loop]. rewrite !exec_bind.
    rewrite (loop_body_signal_error e _ _ h rs rf Hpoll Hflag Hread).
    reflexivity.
  - intros Hs Hf Hread.
    pose proof (loop_body_fanotify_error e _ _ h rs rf Hpoll Hs Hf Hread) as L.
    split; [exact L |].
    unfold running. cbn [main_loop]. rewrite !exec_bind, L. reflexivity.
Qed.

Lemma C2_witness_both_channels :
  (exists line,
     exec failing_signal_env
       (running 1 {| event_mask := FAN_OPEN; monitors := ["/tmp"] |} 3 4) []
     = ([log (sys_poll 3 4); log (sys_read 3 SIGNALFD_SIGINFO_LEN);
         log (sys_stderr line)],
        Stopped (Exited EXIT_FAILURE)))
  /\ exec failing_read_env (loop_body 3 4) []
     = ([log (sys_poll 3 4); log (sys_read 4 FANOTIFY_BUFFER_SIZE)],
        Done Continue).
Proof.
  split.
  - apply (proj1 (C2_read_errors_while_running failing_signal_env
                    {| event_mask := FAN_OPEN; monitors := ["/tmp"] |}
                    3 4 0 [] POLLIN POLLIN eq_refl));
      reflexivity.
  - apply (proj2 (C2_read_errors_while_running failing_read_env
                    {| event_mask := FAN_OPEN; monitors := ["/tmp"] |}
                    3 4 0 [] 0 POLLIN eq_refl));
      reflexivity.
Defined.

(** ** C5: the clean exit after a termination signal *)

(** C5.  Let [main] have reached its loop, with the marks of the set-up
    added, and let the loop have made [k] turns, whatever events it read and
    reported in them.  If the next [poll] finds a [SIGINT] or [SIGTERM] on
    the signal channel (whatever it says of the notification channel), then
    [main] returns [EXIT_SUCCESS], and in the whole run: a mark was added
    once for each directory with the parsed mask; a removal was called once
    for each directory, in the same order and with that same mask; and each
    path was released once.  The values the removals return are not looked
    at: the result holds in every environment. *)
Theorem C5_termination_signal_removes_every_mark
        (e : env) (argv : list string) (m i : Z)
        (signal_fd fanotify_fd : Z) (g : globals) (h0 h : trace) (k n : nat) :
  2 <= Z.of_nat (List.length argv) ->
  parse_options argv = (m, i) ->
  i < Z.of_nat (List.length argv) ->
  exec e (startup {| event_mask := m; monitors := [] |} i argv) []
  = (h0, Done (signal_fd, fanotify_fd, g)) ->
  exec e (main_loop k signal_fd fanotify_fd) h0 = (h, Stopped Unfinished) ->
  termination_signal e signal_fd fanotify_fd h ->
  exists t,
    exec e (main (k + S n) argv) [] = (t, Done EXIT_SUCCESS)
    /\ marks FAN_MARK_ADD t = map (pair m) (skipn (Z.to_nat i) argv)
    /\ marks FAN_MARK_REMOVE t = map (pair m) (skipn (Z.to_nat i) argv)
    /\ freed_paths t = skipn (Z.to_nat i) argv.
Proof.
  intros Hargc Hparse Hi Hstart Hloop Hsig.
  assert (H1 : 1 <= i).
  { pose proof (parse_loop_index (skipn 1 argv) 1 (starting_mask argv)) as P.
    rewrite <- parse_options_eq, Hparse in P. exact P. }
  destruct (startup_exec e {| event_mask := m; monitors := [] |} i argv [] H1)
    as (t0 & r & E0 & R0 & F0 & A0 & _).
  rewrite Hstart in E0. cbn [app] in E0. injection E0 as -> <-.
  destruct (A0 _ _ _ eq_refl) as [-> A0']. cbn [event_mask] in *.
  destruct (always_exec reporting anyhow e
              (main_loop k signal_fd fanotify_fd) t0
              (main_loop_reporting _ _ _)) as (tl & Hl & Pl & _).
  rewrite Hloop in Hl. cbn [fst] in Hl. subst h.
  assert (Nl : forall flags, marks flags tl = [])
    by (intros flags; apply (collect_none _ reporting);
        [apply reporting_no_mark | exact Pl]).
  assert (Fl : freed_paths tl = [])
    by (apply (collect_none _ reporting);
        [apply reporting_no_free | exact Pl]).
  rewrite (main_unfold _ argv m i Hargc Hparse Hi), exec_bind, Hstart.
  unfold running. rewrite exec_bind.
  rewrite (main_loop_resume e _ _ k (S n) _ _ Hloop).
  cbn [main_loop]. rewrite exec_bind.
  rewrite (loop_body_termination e _ _ _ Hsig). cbn [exec].
  rewrite clean_exit_exec.
  eexists. split; [reflexivity |].
  set (g := {| event_mask := m; monitors := skipn (Z.to_nat i) argv |}).
  unfold marks, freed_paths in *.
  rewrite !collect_app, ?A0', ?R0, ?F0, ?Nl, ?Fl.
  fold (marks FAN_MARK_ADD (teardown g signal_fd fanotify_fd)).
  fold (marks FAN_MARK_REMOVE (teardown g signal_fd fanotify_fd)).
  fold (freed_paths (teardown g signal_fd fanotify_fd)).
  rewrite teardown_marks_add, teardown_marks_remove, teardown_freed.
  cbn. rewrite !app_nil_r. conjs; reflexivity.
Qed.

Lemma C5_witness_sigint_after_one_event :
  exists t,
    exec calm_env (main 2 ["fanotify-cmdline"; "/tmp"]) []
    = (t, Done EXIT_SUCCESS)
    /\ marks FAN_MARK_ADD t = [(event_mask_default, "/tmp")]
    /\ marks FAN_MARK_REMOVE t = [(event_mask_default, "/tmp")]
    /\ freed_paths t = ["/tmp"].
Proof.
  eapply (C5_termination_signal_removes_every_mark calm_env
            ["fanotify-cmdline"; "/tmp"] event_mask_default 1
            _ _ _ _ _ 1 0).
  - simpl. lia.
  - reflexivity.
  - simpl. lia.
  - vm_compute. reflexivity.
  - vm_compute. reflexivity.
  - exists POLLIN, POLLIN, siginfo_int. conjs.
    + reflexivity.
    + reflexivity.
    + reflexivity.
    + vm_compute. discriminate.
    + left. reflexivity.
Defined.

(** * Further properties of the code *)

(** ** [getmask] *)

Lemma getmask_zero_or_bit (name : string) :
  getmask name = 0 \/ exists c, getmask name = category_bit c.
Proof.
  unfold getmask.
  match goal with
  | |- fanmask_scan ?body fanmask = 0 \/ _ =>
      destruct (fanmask_scan_values body fanmask) as [H | H];
      [now left | right];
      set (v := fanmask_scan body fanmask) in *; clearbody v
  end.
  unfold fanmask in H. cbn [map snd In] in H.
  destruct H as [H | [H | [H | [H | [H | [H | [H | []]]]]]]]; subst v.
  - now exists Accessed.
  - now exists Modified.
  - now exists ClosedAfterWrite.
  - now exists ClosedWithoutWrite.
  - now exists Opened.
  - now exists DirectoryEvents.
  - now exists EventsOnChildren.
Qed.

(** X1.  Whatever the name, the lookup answers [0] or the bit of exactly one
    category: never a combination of bits, never a bit outside the table. *)
Theorem X1_getmask_answers_zero_or_one_bit (name : string) :
  getmask name = 0 \/ exists c, getmask name = category_bit c.
Proof.
  exact (getmask_zero_or_bit name).
Qed.

(** ** Option parsing *)

(** Anything the two updates of the loop preserve holds of the mask the loop
    ends with. *)
Lemma parse_loop_invariant (P : Z -> Prop) :
  (forall m name, P m -> P (Z.lor m (getmask name))) ->
  (forall m name, P m -> P (Z.land m (not64 (getmask name)))) ->
  forall n args i m,
    (List.length args <= n)%nat -> P m -> P (fst (parse_loop args i m)).
Proof.
  intros Hor Hand.
  induction n as [| n IH]; intros [| a [| name rest]] i m Hn Hm;
    cbn [List.length] in Hn; try lia; cbn [parse_loop].
  - exact Hm.
  - exact Hm.
  - destruct (String.eqb a "+e"), (String.eqb a "-e"); exact Hm.
  - assert (R : forall i m, P m -> P (fst (parse_loop rest i m)))
      by (intros; apply IH; [lia | assumption]).
    destruct (String.eqb a "+e"); [| destruct (String.eqb a "-e")].
    + apply R. destruct (getmask name =? 0); [exact Hm | now apply Hor].
    + apply R. destruct (getmask name =? 0); [exact Hm | now apply Hand].
    + exact Hm.
Qed.

Lemma parse_loop_index_upper (n : nat) :
  forall args i m,
    (List.length args <= n)%nat ->
    snd (parse_loop args i m) <= i + Z.of_nat (List.length args).
Proof.
  induction n as [| n IH]; intros [| a [| name rest]] i m Hn;
    cbn [List.length] in Hn; try lia; cbn [parse_loop].
  - simpl. lia.
  - simpl. lia.
  - destruct (String.eqb a "+e"), (String.eqb a "-e"); simpl; lia.
  - assert (R : forall i m,
               snd (parse_loop rest i m) <= i + Z.of_nat (List.length rest))
      by (intros; apply IH; lia).
    cbn [List.length].
    destruct (String.eqb a "+e"); [| destruct (String.eqb a "-e")].
    + etransitivity; [apply R | lia].
    + etransitivity; [apply R | lia].
    + simpl. lia.
Qed.

Lemma category_bit_within_base (c : category) :
  Z.lor (category_bit c) base_mask = base_mask.
Proof. destruct c; reflexivity. Qed.

Lemma getmask_within_base (name : string) :
  Z.lor (getmask name) base_mask = base_mask.
Proof.
  destruct (getmask_zero_or_bit name) as [-> | [c ->]].
  - reflexivity.
  - apply category_bit_within_base.
Qed.

(** X2.  Whatever the arguments, the mask [main] ends up with is not
    negative and has no bit outside the seven categories: directives can
    only clear bits of the default or set bits of the table. *)
Theorem X2_parsed_mask_stays_within_categories (argv : list string) :
  0 <= fst (parse_options argv) /\ within_base (fst (parse_options argv)).
Proof.
  rewrite parse_options_eq.
  apply (parse_loop_invariant (fun m => 0 <= m /\ within_base m))
    with (n := List.length (skipn 1 argv)); [| | lia |].
  - intros m name [H0 Hb]. split.
    + apply Z.lor_nonneg. split; [exact H0 |].
      destruct (getmask_zero_or_bit name) as [-> | [c ->]];
        [lia | destruct c; discriminate].
    + unfold within_base in *.
      now rewrite <- Z.lor_assoc, getmask_within_base.
  - intros m name [H0 Hb]. split.
    + apply Z.land_nonneg. now left.
    + unfold within_base in *. apply Z.bits_inj'. intros k Hk.
      rewrite Z.lor_spec, Z.land_spec.
      assert (T : Z.testbit (Z.lor m base_mask) k = Z.testbit base_mask k)
        by now rewrite Hb.
      rewrite Z.lor_spec in T.
      destruct (Z.testbit m k), (Z.testbit base_mask k),
        (Z.testbit (not64 (getmask name)) k); simpl in *; congruence.
  - unfold starting_mask.
    destruct argv as [| prog [| a rest]]; try (split; [discriminate | reflexivity]).
    destruct (String.eqb a "+e"); split; try discriminate; reflexivity.
Qed.

(** X3.  With at least the program name in [argv], the index the parsing
    loop ends with lies between [1] and [argc]: the loop never steps past the
    end of the arguments, dangling token or not. *)
Theorem X3_parse_index_within_arguments (argv : list string) :
  1 <= Z.of_nat (List.length argv) ->
  1 <= snd (parse_options argv) <= Z.of_nat (List.length argv).
Proof.
  intros Hargc. rewrite parse_options_eq. split.
  - apply parse_loop_index.
  - etransitivity; [apply (parse_loop_index_upper (List.length (skipn 1 argv)));
                    lia |].
    rewrite length_skipn. lia.
Qed.

Lemma X3_witness_dangling_token :
  1 <= snd (parse_options ["fanotify-cmdline"; "-e"; "OPEN"; "+e"]) <= 4.
Proof.
  apply (X3_parse_index_within_arguments
           ["fanotify-cmdline"; "-e"; "OPEN"; "+e"]).
  simpl. lia.
Defined.

(** ** The decoder *)

Lemma fan_events_contiguous (buffer : list byte) (fuel : nat) :
  forall meta len,
    0 <= meta -> meta + len <= Z.of_nat (List.length buffer) ->
    (Z.to_nat len < fuel)%nat ->
    exists records,
      fan_events fuel buffer meta len = Done records
      /\ contiguous meta records
      /\ FAN_EVENT_METADATA_LEN * Z.of_nat (List.length records) <= Z.max 0 len.
Proof.
  induction fuel as [| fuel IH]; intros meta len Hmeta Hlen Hfuel; [lia |].
  cbn [fan_events]. unfold FAN_EVENT_OK, FAN_EVENT_NEXT, FAN_EVENT_METADATA_LEN.
  destruct (Z.geb_spec len 24) as [Hge | Hlt];
    [| exists []; conjs; [reflexivity | exact I | simpl; lia]].
  unfold load_metadata, load_uint.
  rewrite !load_in_range by lia. cbn [option_map].
  set (l := le_combine (firstn 4 (skipn (Z.to_nat meta) buffer))).
  destruct (Z.geb_spec l 24) as [Hl | Hl];
    [| exists []; conjs; [reflexivity | exact I | simpl; lia]].
  destruct (Z.leb_spec l len) as [Hl' | Hl'];
    [| exists []; conjs; [reflexivity | exact I | simpl; lia]].
  cbn [andb].
  destruct (IH (meta + l) (len - l)) as (rest & Hrest & Hc & Hn); try lia.
  rewrite Hrest. eexists. conjs; [reflexivity | |].
  - cbn [contiguous fst snd event_len]. split; [reflexivity | exact Hc].
  - unfold FAN_EVENT_METADATA_LEN in Hn. cbn [List.length]. lia.
Qed.

(** X4.  On every buffer the records the decoder yields start at offset 0,
    follow one another without gap or overlap (each starts where the
    declared length of the one before ends), and there are at most as many
    as whole headers fit in the buffer. *)
Theorem X4_decoded_records_are_contiguous (buffer : list byte) :
  exists records,
    decode buffer = Done records
    /\ contiguous 0 records
    /\ FAN_EVENT_METADATA_LEN * Z.of_nat (List.length records)
       <= Z.of_nat (List.length buffer).
Proof.
  unfold decode, decode_fuel.
  destruct (fan_events_contiguous buffer (S (List.length buffer)) 0
              (Z.of_nat (List.length buffer)))
    as (records & E & C & N); try lia.
  exists records. conjs; [exact E | exact C | lia].
Qed.

(** ** Metadata resolution *)

Lemma c_str_app_nul (l : list byte) : c_str (l ++ [x00]) = c_str l.
Proof.
  induction l as [| b l IH]; simpl; [reflexivity |].
  destruct (Byte.eqb b x00); [reflexivity | now rewrite IH].
Qed.

(** X5.  For a positive descriptor, path resolution makes one call, a
    [readlink] of [/proc/self/fd/<fd>] for at most [buffer_size - 1] bytes.
    When that fails the result is [NULL]; otherwise the result is the
    target of the link, cut to [buffer_size - 1] bytes and terminated by the
    function itself, in a buffer of at most [buffer_size] bytes. *)
Theorem X5_path_of_positive_descriptor
        (e : env) (h : trace) (fd' buffer_size : Z) :
  0 < fd' -> 1 <= buffer_size ->
  let path := ("/proc/self/fd/" ++ string_of_Z fd')%string in
  let answer := e _ h (sys_readlink path (buffer_size - 1)) in
  let h1 := h ++ [log (sys_readlink path (buffer_size - 1))] in
  let run := exec e (get_file_path_from_fd fd' buffer_size) h in
  (answer = None -> run = (h1, Done None))
  /\ (forall target,
        answer = Some target ->
        exists buffer,
          run = (h1, Done (Some buffer))
          /\ c_str buffer = c_str (firstn (Z.to_nat (buffer_size - 1)) target)
          /\ Z.of_nat (List.length buffer) <= buffer_size).
Proof.
  intros Hfd Hsize path answer h1 run. subst run.
  unfold get_file_path_from_fd, readlink.
  destruct (Z.leb_spec fd' 0); [lia |].
  cbn [bind exec perform]. fold path. fold answer. fold h1. split.
  - intros ->. reflexivity.
  - intros target ->. cbn [bind exec].
    destruct (Z.ltb_spec
                (Z.of_nat
                   (List.length (firstn (Z.to_nat (buffer_size - 1)) target)))
                0); [lia |].
    eexists. conjs; [reflexivity | apply c_str_app_nul |].
    rewrite length_app, length_firstn. cbn [List.length]. lia.
Qed.

Lemma X5_witness_descriptor_5 :
  exists buffer,
    exec calm_env (get_file_path_from_fd 5 PATH_MAX) []
    = ([log (sys_readlink "/proc/self/fd/5" 4095)], Done (Some buffer))
    /\ c_str buffer = c_str (firstn 4095 (list_byte_of_string "/tmp/watched/file"))
    /\ Z.of_nat (List.length buffer) <= PATH_MAX.
Proof.
  apply (proj2 (X5_path_of_positive_descriptor calm_env [] 5 PATH_MAX
                  ltac:(lia) ltac:(unfold PATH_MAX; lia))).
  reflexivity.
Defined.



(** ** Reporting one event *)



(** ** One turn of the loop *)

(** X8.  A signal other than [SIGINT] and [SIGTERM] read from the signal
    channel is reported on standard error and otherwise ignored: the turn
    ends with the loop going on, and nothing is torn down. *)
Theorem X8_unexpected_signal_is_ignored
        (e : env) (signal_fd fanotify_fd : Z) (h : trace) (rs rf : Z)
        (data : list byte) :
  e _ h (sys_poll signal_fd fanotify_fd) = Some (rs, rf) ->
  has_flag rs POLLIN = true ->
  has_flag rf POLLIN = false ->
  e _ (h ++ [log (sys_poll signal_fd fanotify_fd)])
    (sys_read signal_fd SIGNALFD_SIGINFO_LEN) = Some data ->
  SIGNALFD_SIGINFO_LEN <= Z.of_nat (List.length data) ->
  le_combine (firstn 4 data) <> SIGINT ->
  le_combine (firstn 4 data) <> SIGTERM ->
  exec e (loop_body signal_fd fanotify_fd) h
  = (((h ++ [log (sys_poll signal_fd fanotify_fd)])
        ++ [log (sys_read signal_fd SIGNALFD_SIGINFO_LEN)])
       ++ [log (sys_stderr ("Received unexpected signal"
                              ++ String newline "")%string)],
     Done Continue).
Proof.
  intros Hpoll Hs Hf Hread Hlen Hint Hterm.
  unfold loop_body. cbn [bind exec perform]. rewrite Hpoll.
  rewrite exec_bind, Hs.
  unfold signal_ready, read. cbn [bind exec perform]. rewrite Hread.
  cbn [bind exec].
  unfold SIGNALFD_SIGINFO_LEN in *.
  assert (L : List.length (firstn (Z.to_nat 128) data) = Z.to_nat 128)
    by (apply firstn_length_le; lia).
  rewrite L.
  assert (F : firstn 4 (firstn (Z.to_nat 128) data) = firstn 4 data)
    by (rewrite firstn_firstn; f_equal).
  rewrite F.
  change (Z.of_nat (Z.to_nat 128) =? 128) with true. cbn [negb].
  destruct (Z.eqb_spec (le_combine (firstn 4 data)) SIGINT); [contradiction |].
  destruct (Z.eqb_spec (le_combine (firstn 4 data)) SIGTERM); [contradiction |].
  cbn [orb bind exec eprintf perform]. rewrite exec_bind, Hf.
  cbn [when exec]. reflexivity.
Qed.

Lemma X8_witness_sighup :
  exec hangup_env (loop_body 3 4) []
  = ([log (sys_poll 3 4); log (sys_read 3 SIGNALFD_SIGINFO_LEN);
      log (sys_stderr ("Received unexpected signal" ++ String newline "")%string)],
     Done Continue).
Proof.
  apply (X8_unexpected_signal_is_ignored hangup_env 3 4 [] POLLIN 0 siginfo_hup).
  - reflexivity.
  - reflexivity.
  - reflexivity.
  - reflexivity.
  - vm_compute. discriminate.
  - vm_compute. discriminate.
  - vm_compute. discriminate.
Defined.

(** ** Set-up *)






Lemma add_marks_refused (e : env) (fanotify_fd m : Z)
      (before : list string) (bad : string) (after : list string) :
  (forall hh p,
      In p before ->
      0 <= e _ hh (sys_fanotify_mark fanotify_fd FAN_MARK_ADD m p)) ->
  (forall hh, e _ hh (sys_fanotify_mark fanotify_fd FAN_MARK_ADD m bad) < 0) ->
  forall done h,
  exists t,
    exec e (add_marks fanotify_fd m (before ++ bad :: after) done) h
    = (h ++ t, Done (false, (done ++ before) ++ [bad]))
    /\ marks FAN_MARK_ADD t = map (pair m) (before ++ [bad]).
Proof.
  intros Hok Hbad. induction before as [| p before IH]; intros done h.
  - cbn [app add_marks bind exec perform eprintf].
    match goal with
    | |- context [if ?r <? 0 then _ else _] =>
        destruct (Z.ltb_spec r 0) as [_ | Hpos];
        [| match type of Hpos with
           | 0 <= e _ ?hh _ => specialize (Hbad hh); lia
           end]
    end.
    cbn [bind exec]. rewrite app_nil_r.
    eexists. split; [rewrite <- !app_assoc; reflexivity | reflexivity].
  - cbn [app add_marks bind exec perform printf].
    match goal with
    | |- context [if ?r <? 0 then _ else _] =>
        destruct (Z.ltb_spec r 0) as [Hneg | _];
        [ match type of Hneg with
          | e _ ?hh _ < 0 => specialize (Hok hh p (or_introl eq_refl)); lia
          end |]
    end.
    cbn [bind exec].
    match goal with
    | |- context [exec e (add_marks _ _ _ ?d) ?hh] =>
        destruct (IH (fun hh' q Hq => Hok hh' q (or_intror Hq)) d hh)
          as (t & E & A)
    end.
    rewrite E. eexists. split.
    + rewrite <- !app_assoc. reflexivity.
    + unfold marks in *. cbn [app collect].
      change (mark_of FAN_MARK_ADD (log (lib_strdup p)))
        with (@None (Z * string)).
      change (mark_of FAN_MARK_ADD
                (log (sys_fanotify_mark fanotify_fd FAN_MARK_ADD m p)))
        with (Some (m, p)).
      cbn. now rewrite A.
Qed.

(** X10.  When a directory cannot be marked, [initialize_fanotify] returns
    [-1] after having marked the directories before it, in order, and tried
    the failing one; the directories after it are never marked. *)
Theorem X10_first_refused_mark_ends_registration
        (e : env) (g : globals) (prog : string)
        (before : list string) (bad : string) (after : list string)
        (h : trace) :
  let fanotify_fd := e _ h sys_fanotify_init in
  0 <= fanotify_fd ->
  (forall hh p,
      In p before ->
      0 <= e _ hh (sys_fanotify_mark fanotify_fd FAN_MARK_ADD (event_mask g) p)) ->
  (forall hh,
      e _ hh (sys_fanotify_mark fanotify_fd FAN_MARK_ADD (event_mask g) bad)
      < 0) ->
  exists t g',
    exec e (initialize_fanotify g (prog :: before ++ bad :: after)) h
    = (h ++ t, Done (-1, g'))
    /\ marks FAN_MARK_ADD t = map (pair (event_mask g)) (before ++ [bad]).
Proof.
  intros fanotify_fd Hfd Hok Hbad.
  unfold initialize_fanotify. cbn [bind exec perform]. fold fanotify_fd.
  destruct (Z.ltb_spec fanotify_fd 0); [lia |].
  cbn [bind exec skipn]. rewrite exec_bind.
  match goal with
  | |- context [exec e (add_marks _ _ _ ?d) ?hh] =>
      destruct (add_marks_refused e fanotify_fd (event_mask g) before bad after
                  Hok Hbad d hh) as (t & E & A)
  end.
  rewrite E. cbn [exec]. eexists _, _. split.
  - rewrite <- !app_assoc. reflexivity.
  - unfold marks in *. cbn. exact A.
Qed.

Lemma X10_witness_second_directory_refused :
  exists t g',
    exec refusing_env
      (initialize_fanotify {| event_mask := FAN_OPEN; monitors := [] |}
         ("fanotify-cmdline" :: ["/tmp"] ++ "/nonexistent" :: ["/var"])) []
    = ([] ++ t, Done (-1, g'))
    /\ marks FAN_MARK_ADD t
       = map (pair FAN_OPEN) (["/tmp"] ++ ["/nonexistent"]).
Proof.
  apply (X10_first_refused_mark_ends_registration refusing_env
           {| event_mask := FAN_OPEN; monitors := [] |} "fanotify-cmdline"
           ["/tmp"] "/nonexistent" ["/var"] []).
  - simpl. lia.
  - intros hh p [<- | []]. simpl. lia.
  - intros hh. simpl. lia.
Defined.

(** ** The whole program *)





